(** * oplus: the EnergyPlus schema catalogue (Idd) and its field descriptors

    A shallow embedding of
      - [oplus/epm/field_descriptor.py]  ([var_name_to_ref], [FieldDescriptor]),
      - [oplus/epm/util.py]              ([table_name_to_ref]),
      - [oplus/idf/idd.py]               ([Idd._parse], [Idd._link], the lookups),
    followed by the properties the specification states about them.

    Python [str] values are modelled by [string]: every character is a code
    point of the ASCII range, and the character classes below are those of
    Python's [re] and [str] methods on that range.  A byte above 127 stands
    for a symbol without case that is neither white space nor a word
    character. *)

From Stdlib Require Import ZArith Lia Bool List Ascii String DecimalString DecimalZ DecimalPos.
From stdpp Require Import gmap strings list fin_maps.

Open Scope string_scope.

(* [simpl] unfolds the concatenation of strings on a constructor. *)
Arguments String.append !s1%_string_scope s2%_string_scope.

(** ** Python strings *)

Module PyStr.

Definition code (c : ascii) : N := N_of_ascii c.

Definition in_range (lo hi : N) (c : ascii) : bool :=
  ((lo <=? code c) && (code c <=? hi))%N.

Definition is_upper (c : ascii) : bool := in_range 65 90 c.
Definition is_lower (c : ascii) : bool := in_range 97 122 c.

(** [\d], on the ASCII range *)
Definition is_digit (c : ascii) : bool := in_range 48 57 c.

(** [\s], and [str.isspace], on the ASCII range: TAB LF VT FF CR, FS GS RS
    US, SPACE. *)
Definition is_space (c : ascii) : bool := in_range 9 13 c || in_range 28 32 c.

(** [\w], on the ASCII range: alphanumeric or underscore. *)
Definition is_word (c : ascii) : bool :=
  is_upper c || is_lower c || is_digit c || Ascii.eqb c "_".

(** The lower-casing of one character of the ASCII range. *)
Definition lower_char (c : ascii) : ascii :=
  if is_upper c then ascii_of_N (code c + 32) else c.

(** [s.lower()], on text of the ASCII range *)
Fixpoint lower (s : string) : string :=
  match s with
  | "" => ""
  | String c s' => String (lower_char c) (lower s')
  end.

Fixpoint all_chars (p : ascii -> bool) (s : string) : bool :=
  match s with
  | "" => true
  | String c s' => p c && all_chars p s'
  end.

Fixpoint any_char (p : ascii -> bool) (s : string) : bool :=
  match s with
  | "" => false
  | String c s' => p c || any_char p s'
  end.

(** [c in s] for a one-character [c] *)
Definition contains_char (c : ascii) (s : string) : bool :=
  any_char (Ascii.eqb c) s.

(** [s.lstrip()], [s.rstrip()] and [s.strip()] *)
Fixpoint lstrip (s : string) : string :=
  match s with
  | "" => ""
  | String c s' => if is_space c then lstrip s' else s
  end.

Fixpoint rstrip (s : string) : string :=
  match s with
  | "" => ""
  | String c s' =>
      match rstrip s' with
      | "" => if is_space c then "" else String c ""
      | r => String c r
      end
  end.

Definition strip (s : string) : string := rstrip (lstrip s).

(** [s.startswith(p)]: the rest of [s] after the prefix [p], if any. *)
Fixpoint strip_prefix (p s : string) : option string :=
  match p, s with
  | "", _ => Some s
  | String a p', String b s' => if Ascii.eqb a b then strip_prefix p' s' else None
  | String _ _, "" => None
  end.

(** [needle in s] *)
Fixpoint contains (needle s : string) : bool :=
  match strip_prefix needle s with
  | Some _ => true
  | None => match s with
            | "" => false
            | String _ s' => contains needle s'
            end
  end.

(** [s.split(sep)[0]]: what precedes the first occurrence of [sep]
    (all of [s] when there is none), for a non-empty [sep]. *)
Fixpoint split_head (sep s : string) : string :=
  match strip_prefix sep s with
  | Some _ => ""
  | None => match s with
            | "" => ""
            | String c s' => String c (split_head sep s')
            end
  end.

(** [s.split(",")] *)
Fixpoint split_char (sep : ascii) (s : string) : list string :=
  match s with
  | "" => [""]
  | String c s' =>
      if Ascii.eqb c sep then "" :: split_char sep s'
      else match split_char sep s' with
           | [] => [String c ""]
           | w :: ws => String c w :: ws
           end
  end.

(** [s[:-1]] *)
Fixpoint drop_last (s : string) : string :=
  match s with
  | "" => ""
  | String c "" => ""
  | String c s' => String c (drop_last s')
  end.

(** [s.replace(a, b)] for one-character [a] and [b] *)
Fixpoint replace_char (a b : ascii) (s : string) : string :=
  match s with
  | "" => ""
  | String c s' => String (if Ascii.eqb c a then b else c) (replace_char a b s')
  end.

End PyStr.

(** ** Regular-expression substitutions of [field_descriptor.py] *)

Module Re.
Import PyStr.

(** What [re.sub] writes for a finished run of class characters: the
    replacement ["_"] when the run is long enough to match [[class]{min,}],
    the run itself when it is too short to match. *)
Definition flush (min : nat) (run : string) : string :=
  match run with
  | "" => ""
  | _ => if (min <=? String.length run)%nat then "_" else run
  end.

(** [re.sub("[class]{min,}", "_", s)]: the matches are the maximal runs of
    class characters at least [min] long, found left to right; [run] is the
    run being read. *)
Fixpoint sub_runs (p : ascii -> bool) (min : nat) (run s : string) : string :=
  match s with
  | "" => flush min run
  | String c s' =>
      if p c then sub_runs p min (run +:+ String c "") s'
      else flush min run +:+ String c (sub_runs p min "" s')
  end.

(** [not_python_var_pattern = (^[^\w]+)|([^\w\d]+)].  Both alternatives are
    greedy runs over one class of characters ([not_var_first] at the start
    of the text, [not_var] anywhere), and the two classes are the same set
    (lemma [not_var_classes] below), so the matches are the maximal runs of
    non-word characters. *)
Definition not_var_first (c : ascii) : bool := negb (is_word c).
Definition not_var (c : ascii) : bool := negb (is_word c || is_digit c).

(** [multiple_underscores_pattern = [_]{2,}] *)
Definition underscore (c : ascii) : bool := Ascii.eqb c "_".

(** [spaces_pattern = \s+], substituted by one space. *)
Fixpoint sub_spaces (in_run : bool) (s : string) : string :=
  match s with
  | "" => ""
  | String c s' =>
      if is_space c then
        if in_run then sub_spaces true s' else String " " (sub_spaces true s')
      else String c (sub_spaces false s')
  end.

End Re.

(** ** [oplus/epm/field_descriptor.py] *)

Import PyStr.

(** [var_name_to_ref(name)], for a name of the ASCII range *)
Definition var_name_to_ref (name : string) : string :=
  let ref := Re.sub_runs Re.not_var 1 "" (lower name) in
  Re.sub_runs Re.underscore 2 "" ref.


(** ** Exceptions and results *)

Inductive exn : Type :=
| ValueError (msg : string)
| FieldValidationError (msg : string)
| RuntimeError (msg : string)
| AssertionError (msg : string)
| KeyError (key : string)
| IndexError
| AttributeError.

Inductive result (A : Type) : Type :=
| Ok (a : A)
| Raise (e : exn).
Arguments Ok {A} a.
Arguments Raise {A} e.

Definition bind {A B : Type} (r : result A) (k : A -> result B) : result B :=
  match r with
  | Ok a => k a
  | Raise e => Raise e
  end.

Notation "'do' x <- r ; k" := (bind r (fun x => k))
  (at level 10, x name, r at level 100, k at level 200).

(** ** Python's [str(n)] and [int(s)] on integers *)

(** [str(n)] for an [int] *)
Definition str_of_Z (n : Z) : string := NilZero.string_of_int (Z.to_int n).

Definition digit_value (c : ascii) : Z := Z.of_N (code c) - 48.

(** The digits of an integer literal, most significant first; single
    underscores may separate digits. *)
Fixpoint digits_value (acc : Z) (after_digit : bool) (s : string) : option Z :=
  match s with
  | "" => if after_digit then Some acc else None
  | String c s' =>
      if is_digit c then digits_value (10 * acc + digit_value c) true s'
      else if Ascii.eqb c "_" then
        if after_digit then digits_value acc false s' else None
      else None
  end.

(** [int(s)] for a [str]: surrounding white space, an optional sign, decimal
    digits. [None] stands for the [ValueError]. *)
Definition int_of_str (s : string) : option Z :=
  match strip s with
  | "" => None
  | String c d =>
      if Ascii.eqb c "-" then option_map Z.opp (digits_value 0 false d)
      else if Ascii.eqb c "+" then digits_value 0 false d
      else digits_value 0 false (String c d)
  end.

(** ** Tag store: the dict [tags] of a descriptor *)

Abbreviation tag_store := (gmap string (list string)).

(** [ref in tags] *)
Definition has_key (ref : string) (tags : tag_store) : bool :=
  bool_decide (is_Some (tags !! ref)).

(** [append_tag(ref, value=None)] on the dict *)
Definition tags_append (ref : string) (value : option string) (tags : tag_store)
  : tag_store :=
  let tags := if has_key ref tags then tags else <[ref := []]> tags in
  match value with
  | None => tags
  | Some v => <[ref := (default [] (tags !! ref) ++ [v])%list]> tags
  end.

(** ** [class FieldDescriptor] *)

Record FieldDescriptor : Type := mkFieldDescriptor {
  (** the owning table descriptor; the class only ever reads its
      [table_name], which is what is kept here *)
  table_descriptor : string;
  index : nat;
  basic_type : string;
  name : option string;
  ref : option string;
  tags : tag_store;
  _detailed_type : option string
}.

(** [FieldDescriptor.__init__] *)
Definition FieldDescriptor_init (table_descriptor : string) (index : nat)
    (field_basic_type : string) (name : option string) : result FieldDescriptor :=
  if negb (String.eqb field_basic_type "A" || String.eqb field_basic_type "N") then
    Raise (ValueError ("Unknown field type: '" +:+ field_basic_type +:+ "'."))
  else
    Ok {| table_descriptor := table_descriptor;
          index := index;
          basic_type := field_basic_type;
          name := name;
          ref := option_map var_name_to_ref name;
          tags := ∅;
          _detailed_type := None |}.

Definition set_tags (self : FieldDescriptor) (t : tag_store) : FieldDescriptor :=
  {| table_descriptor := table_descriptor self; index := index self;
     basic_type := basic_type self; name := name self; ref := ref self;
     tags := t; _detailed_type := _detailed_type self |}.

Definition set_detailed_type (self : FieldDescriptor) (t : string) : FieldDescriptor :=
  {| table_descriptor := table_descriptor self; index := index self;
     basic_type := basic_type self; name := name self; ref := ref self;
     tags := tags self; _detailed_type := Some t |}.

(** [FieldDescriptor.append_tag] *)
Definition append_tag (self : FieldDescriptor) (ref : string) (value : option string)
  : FieldDescriptor :=
  set_tags self (tags_append ref value (tags self)).

(** [FieldDescriptor.is_required] *)
Definition is_required (self : FieldDescriptor) : bool :=
  has_key "required-field" (tags self).

(** The cascade of [detailed_type], run when nothing is cached yet. *)
Definition resolve_detailed_type (self : FieldDescriptor) : result string :=
  if has_key "reference" (tags self) || has_key "reference-class-name" (tags self) then
    Ok "reference"
  else if has_key "type" (tags self) then
    match tags self !! "type" with
    | Some (v :: _) => Ok (lower v)
    | Some [] => Raise IndexError
    | None => Raise (KeyError "type")
    end
  else if has_key "key" (tags self) then Ok "choice"
  else if has_key "object-list" (tags self) then Ok "object-list"
  else if has_key "external-list" (tags self) then Ok "external-list"
  else if String.eqb (basic_type self) "A" then Ok "alpha"
  else if String.eqb (basic_type self) "N" then Ok "real"
  else Raise (ValueError "Can't find detailed type.").

(** The property [FieldDescriptor.detailed_type]: the value and the
    descriptor afterwards, whose [_detailed_type] caches a computed value. *)
Definition detailed_type (self : FieldDescriptor) : result string * FieldDescriptor :=
  match _detailed_type self with
  | Some t => (Ok t, self)
  | None =>
      match resolve_detailed_type self with
      | Ok t => (Ok t, set_detailed_type self t)
      | Raise e => (Raise e, self)
      end
  end.

(** Values handed to [deserialize]: [None], a [str], or something that is
    not a [str] (an [int]). *)
Inductive pyval : Type :=
| VNone
| VStr (s : string)
| VInt (z : Z).

(** [f"{value}"] *)
Definition format_value (v : pyval) : string :=
  match v with
  | VNone => "None"
  | VStr s => s
  | VInt z => str_of_Z z
  end.

(** [FieldDescriptor.get_error_location_message] *)
Definition get_error_location_message (self : FieldDescriptor) (value : pyval) : string :=
  "Table: " +:+ table_descriptor self +:+
  ", index: " +:+ str_of_Z (Z.of_nat (index self)) +:+
  ", ref: " +:+ default "None" (ref self) +:+
  match value with
  | VNone => "."
  | _ => ", value: " +:+ format_value value +:+ "."
  end.

(** [FieldDescriptor.check_not_required] *)
Definition check_not_required (self : FieldDescriptor) : result unit :=
  if is_required self then
    Raise (FieldValidationError
             ("Field is required. " +:+ get_error_location_message self VNone))
  else Ok tt.

Section Deserialize.

(** Python's [float]: the type of its values, [float(s)] for a [str] and
    [float(n)] for an [int] ([None] when it raises); and
    [unidecode.unidecode]. *)
Context {float : Type}.
Variable float_of_str : string -> option float.
Variable float_of_int : Z -> option float.
Variable unidecode : string -> string.

(** What [deserialize] returns: [None], a [str], an [int], a [float], a
    [RecordHook(references, value)] or a [Link(reference, value)]. *)
Inductive typed : Type :=
| TNone
| TStr (s : string)
| TInt (z : Z)
| TFloat (x : float)
| RecordHook (references : list string) (value : pyval)
| Link (reference : string) (value : pyval).

(** [return value] *)
Definition typed_of_pyval (value : pyval) : typed :=
  match value with
  | VNone => TNone
  | VStr s => TStr s
  | VInt z => TInt z
  end.

(** [value in ("autocalculate", "autosize", "useweatherfile")] *)
Definition value_in_sentinels (value : pyval) : bool :=
  match value with
  | VStr s => String.eqb s "autocalculate" || String.eqb s "autosize" ||
              String.eqb s "useweatherfile"
  | _ => false
  end.

(** [int(value)] and [float(value)]; [None] when Python raises. *)
Definition int_of_pyval (value : pyval) : option Z :=
  match value with
  | VStr s => int_of_str s
  | VInt z => Some z
  | VNone => None
  end.

Definition float_of_pyval (value : pyval) : option float :=
  match value with
  | VStr s => float_of_str s
  | VInt z => float_of_int z
  | VNone => None
  end.

(** [re.sub(spaces_pattern, lambda x: " ", value.strip())] *)
Definition collapse_spaces (s : string) : string := Re.sub_spaces false (strip s).

(** The normalized text of a [str] input, as the length check sees it:
    white space collapsed and trimmed, then, unless that left nothing,
    transliterated and lower-cased when the field does not retain case. *)
Definition normalize (self : FieldDescriptor) (s : string) : string :=
  let value := collapse_spaces s in
  if String.eqb value "" then ""
  else
    let value := unidecode value in
    if negb (has_key "retaincase" (tags self)) then lower value else value.

Definition too_long_message (self : FieldDescriptor) (value : string) : string :=
  "Field has more than 100 characters which is the limit. " +:+
  get_error_location_message self (VStr value).

(** The part of [deserialize] after the preparation of a [str]: the dispatch
    on the detailed type. *)
Definition deserialize_typed (self : FieldDescriptor) (value : pyval)
  : result typed * FieldDescriptor :=
  match detailed_type self with
  | (Raise e, self) => (Raise e, self)
  | (Ok dt, self) =>
      let r :=
        if String.eqb dt "integer" || String.eqb dt "real" then
          if value_in_sentinels value then Ok (typed_of_pyval value)
          else if String.eqb dt "integer" then
            match int_of_pyval value with
            | Some z => Ok (TInt z)
            | None =>
                Raise (FieldValidationError
                         ("Couldn't parse to integer. " +:+
                          get_error_location_message self value))
            end
          else
            match float_of_pyval value with
            | Some x => Ok (TFloat x)
            | None =>
                Raise (FieldValidationError
                         ("Couldn't parse to float. " +:+
                          get_error_location_message self value))
            end
        else if String.eqb dt "alpha" || String.eqb dt "choice" ||
                String.eqb dt "node" || String.eqb dt "external-list" then
          match value with
          | VStr _ => Ok (typed_of_pyval value)
          | _ =>
              Raise (FieldValidationError
                       ("Value must be a string. " +:+
                        get_error_location_message self value))
          end
        else if String.eqb dt "reference" then
          let references := default [] (tags self !! "reference") in
          Ok (RecordHook references value)
        else if String.eqb dt "object-list" then
          match tags self !! "object-list" with
          | None => Raise (KeyError "object-list")
          | Some [] => Raise IndexError
          | Some (reference :: _) => Ok (Link reference value)
          end
        else Raise (RuntimeError "should not be here")
      in (r, self)
  end.

(** [FieldDescriptor.deserialize] *)
Definition deserialize (self : FieldDescriptor) (value : pyval)
  : result typed * FieldDescriptor :=
  match value with
  | VNone => (Ok TNone, self)
  | VStr s =>
      let value := collapse_spaces s in
      if String.eqb value "" then (Ok TNone, self)
      else
        let value := unidecode value in
        let value := if negb (has_key "retaincase" (tags self)) then lower value
                     else value in
        if (100 <=? String.length value)%nat then
          (Raise (FieldValidationError (too_long_message self value)), self)
        else deserialize_typed self (VStr value)
  | _ => deserialize_typed self value
  end.

End Deserialize.

Arguments typed : clear implicits.

(** ** [oplus/epm/util.py] *)

(** [table_name_to_ref(name)] *)
Definition table_name_to_ref (name : string) : string := replace_char ":" "_" name.

(** ** Record descriptors and the field descriptors of the catalogue *)

(** Modelled from the spec: [idf/table_descriptor.py] is not among the
    sources.  A record descriptor has a name and the identity [table_ref]
    made from it, a group label, an ordered sequence of owned field
    descriptors and a tag store of its own; [add_tag] is the tag store's
    append and [append_field_descriptor] adds at the end (spec 3, 4.1, 6). *)
Record TableDescriptor : Type := mkTableDescriptor {
  table_name : string;
  table_ref : string;
  group_name : string;
  field_descriptors : list FieldDescriptor;
  rd_tags : tag_store
}.

Definition add_tag (self : TableDescriptor) (ref : string) (value : option string)
  : TableDescriptor :=
  {| table_name := table_name self; table_ref := table_ref self;
     group_name := group_name self; field_descriptors := field_descriptors self;
     rd_tags := tags_append ref value (rd_tags self) |}.

Definition set_field_descriptors (self : TableDescriptor) (l : list FieldDescriptor)
  : TableDescriptor :=
  {| table_name := table_name self; table_ref := table_ref self;
     group_name := group_name self; field_descriptors := l;
     rd_tags := rd_tags self |}.

Definition append_field_descriptor (self : TableDescriptor) (fieldd : FieldDescriptor)
  : TableDescriptor :=
  set_field_descriptors self (field_descriptors self ++ [fieldd])%list.

(** Modelled from the spec: the field-descriptor class that [idd.py] imports
    ([idf/field_descriptor.py]) is not among the sources.  It is taken to be
    the [FieldDescriptor] above, whose [index] is the 0-based position in the
    owning record (spec 3); [has_tag] and [get_tag] are the tag store's
    [has(name)] and [get(name)], the latter empty when the name is absent
    (spec 4.1). *)
Definition has_tag (self : FieldDescriptor) (ref : string) : bool :=
  has_key ref (tags self).

Definition get_tag (self : FieldDescriptor) (ref : string) : list string :=
  default [] (tags self !! ref).

(** ** [collections.OrderedDict] with [str] keys *)

Module OD.
Section OD.
Context {V : Type}.

Definition t : Type := list (string * V).

(** [k in d] *)
Fixpoint mem (k : string) (d : t) : bool :=
  match d with
  | [] => false
  | (k', _) :: d' => String.eqb k k' || mem k d'
  end.

(** [d[k]] *)
Fixpoint get (k : string) (d : t) : option V :=
  match d with
  | [] => None
  | (k', v) :: d' => if String.eqb k k' then Some v else get k d'
  end.

(** [d[k] = v]: a known key keeps its place, a new key goes last. *)
Fixpoint set (k : string) (v : V) (d : t) : t :=
  match d with
  | [] => [(k, v)]
  | (k', v') :: d' => if String.eqb k k' then (k, v) :: d' else (k', v') :: set k v d'
  end.

(** [d.values()] *)
Definition values (d : t) : list V := map snd d.

End OD.
Arguments t : clear implicits.
End OD.

(** ** The line patterns of [Idd._parse] *)

Module Line.

Fixpoint take_while (p : ascii -> bool) (s : string) : string :=
  match s with
  | "" => ""
  | String c s' => if p c then String c (take_while p s') else ""
  end.

Fixpoint drop_while (p : ascii -> bool) (s : string) : string :=
  match s with
  | "" => ""
  | String c s' => if p c then drop_while p s' else s
  end.

Definition newline : ascii := "010"%char.
Definition not_newline (c : ascii) : bool := negb (Ascii.eqb c newline).
Definition one_of (set : string) (c : ascii) : bool := contains_char c set.

(** The end [( .* )$] of a pattern: the characters up to the end of the text, or
    up to a newline that ends the text. *)
Definition dot_star_end (r : string) : option string :=
  let rest := drop_while not_newline r in
  if String.eqb rest "" || String.eqb rest (String newline "") then
    Some (take_while not_newline r)
  else None.

(** [(.+)$] *)
Definition dot_plus_end (r : string) : option string :=
  match dot_star_end r with
  | Some "" => None
  | o => o
  end.

(** [^\s*$] *)
Definition blank (line : string) : bool := all_chars is_space line.

(** [^\\group (.+)$], giving group 1 *)
Definition group (line : string) : option string :=
  match strip_prefix "\group " line with
  | Some r => dot_plus_end r
  | None => None
  end.

(** [^\s*\\(.+)$], giving group 1 *)
Definition tag (line : string) : option string :=
  match strip_prefix "\" (lstrip line) with
  | Some r => dot_plus_end r
  | None => None
  end.

(** [^([\w\-\>\<:]+) ( .* )$], giving groups 1 and 2 *)
Definition tag_ref_char (c : ascii) : bool := is_word c || one_of "-><:" c.

Definition tag_ref_value (content : string) : option (string * string) :=
  match take_while tag_ref_char content, drop_while tag_ref_char content with
  | "", _ => None
  | ref, String " " r => option_map (pair ref) (dot_star_end r)
  | _, _ => None
  end.

(** [^\s*([AN])\d+\s*([;,])\s*\\[fF]ield ( .* )$], giving groups 1 and 3 *)
Definition named_field (line : string) : option (string * string) :=
  match lstrip line with
  | String t r =>
      if one_of "AN" t && negb (String.eqb (take_while is_digit r) "") then
        match lstrip (drop_while is_digit r) with
        | String sep r =>
            if one_of ";," sep then
              match strip_prefix "\" (lstrip r) with
              | Some (String f r) =>
                  if one_of "fF" f then
                    match strip_prefix "ield " r with
                    | Some r => option_map (pair (String t "")) (dot_star_end r)
                    | None => None
                    end
                  else None
              | _ => None
              end
            else None
        | "" => None
        end
      else None
  | "" => None
  end.

(** One [[AN]\d+([;,])\s*], giving what follows it *)
Definition slot (r : string) : option string :=
  match r with
  | String t r =>
      if one_of "AN" t && negb (String.eqb (take_while is_digit r) "") then
        match drop_while is_digit r with
        | String sep r => if one_of ";," sep then Some (lstrip r) else None
        | "" => None
        end
      else None
  | "" => None
  end.

(** [([AN]\d+([;,])\s* )+\\note.*$]; a slot takes at least three characters,
    so the length of the text is fuel enough. *)
Fixpoint slots_note (fuel : nat) (r : string) : bool :=
  match fuel with
  | O => false
  | S fuel =>
      match slot r with
      | None => false
      | Some r =>
          match strip_prefix "\note" r with
          | Some r => bool_decide (is_Some (dot_star_end r))
          | None => slots_note fuel r
          end
      end
  end.

(** [^\s*([AN]\d+([;,])\s* )+\\note.*$] *)
Definition unnamed_fields (line : string) : bool :=
  slots_note (String.length line) (lstrip line).

(** [^\s*([\w:\-]+),\s*$], giving group 1 *)
Definition header_char (c : ascii) : bool := is_word c || one_of ":-" c.

Definition record_header (line : string) : option string :=
  let r := lstrip line in
  match take_while header_char r, drop_while header_char r with
  | "", _ => None
  | table_name, String "," r => if all_chars is_space r then Some table_name else None
  | _, _ => None
  end.

End Line.

(** ** [class Idd] *)

(** A link: a record descriptor and a field index. *)
Abbreviation link := (TableDescriptor * nat)%type.
Abbreviation link_table := (gmap string (list (TableDescriptor * nat))).

Record Idd : Type := mkIdd {
  _table_descriptors : OD.t TableDescriptor;
  _pointed_rd_linkds_d : link_table;
  _pointing_rd_linkds_d : link_table
}.

(** The local variables of [_parse], and the catalogue being filled.  The
    variable [rd] refers to a descriptor that sits in the catalogue, and
    [fieldd] to one that sits in a record descriptor's list: they are kept
    as the key, and as the key and position, under which that object is
    found, so that a change made through them is a change of the catalogue. *)
Record parse_state : Type := mkParseState {
  ps_group_name : option string;
  ps_rd : option string;
  ps_fieldd : option (string * nat);
  ps_table_descriptors : OD.t TableDescriptor
}.

Inductive log_record : Type :=
| LogInfo (msg : string)
| LogDebug (msg : string).

Section IddDefs.

(** The identity that [TableDescriptor(table_name, ...)] makes from the
    name, and the enrichment [TableDescriptor.post_init]. *)
Variable table_ref_of : string -> string.
Variable post_init : TableDescriptor -> TableDescriptor.

(** [TableDescriptor(table_name, group_name=group_name)] *)
Definition TableDescriptor_init (table_name group_name : string) : TableDescriptor :=
  {| table_name := table_name; table_ref := table_ref_of table_name;
     group_name := group_name; field_descriptors := []; rd_tags := ∅ |}.

(** A change of the object [rd] refers to. *)
Definition update_rd (k : string) (f : TableDescriptor -> TableDescriptor)
    (d : OD.t TableDescriptor) : OD.t TableDescriptor :=
  match OD.get k d with
  | Some td => OD.set k (f td) d
  | None => d
  end.

(** Modelled from the spec: the class that [idd.py] imports as
    [FieldDescriptor] ([idf/field_descriptor.py]) is not among the sources,
    and its constructor takes the basic type and the name only.  The
    statements [fieldd = FieldDescriptor(fieldd_type, name=name)] and
    [rd.append_field_descriptor(fieldd)] are taken to make the field
    descriptor of spec 3: the basic type and name given, the owning record
    as back-reference, and as index the 0-based position the descriptor
    takes in that record; with no record open the append fails on
    [None]. *)
Definition new_field (st : parse_state) (fieldd_type : string) (name : option string)
  : result parse_state :=
  let owner := match ps_rd st with
               | Some k => OD.get k (ps_table_descriptors st)
               | None => None
               end in
  do fieldd <- FieldDescriptor_init
                 (from_option table_name "" owner)
                 (from_option (fun td => length (field_descriptors td)) 0%nat owner)
                 fieldd_type name;
  match ps_rd st with
  | None => Raise AttributeError
  | Some k =>
      Ok {| ps_group_name := ps_group_name st;
            ps_rd := ps_rd st;
            ps_fieldd := Some (k, index fieldd);
            ps_table_descriptors :=
              update_rd k (fun td => append_field_descriptor td fieldd)
                (ps_table_descriptors st) |}
  end.

(** The loop over [fields_l] of the unnamed field descriptors *)
Fixpoint new_fields (st : parse_state) (fields_l : list string) : result parse_state :=
  match fields_l with
  | [] => Ok st
  | fieldd_s :: fields_l =>
      match fieldd_s with
      | "" => Raise IndexError
      | String c _ =>
          do st <- new_field st (String c "") None;
          new_fields st fields_l
      end
  end.

(** The storing of a tag: on the record descriptor when no field is open,
    on the open field otherwise. *)
Definition store_tag (st : parse_state) (tag_ref : string) (tag_value : option string)
  : result parse_state :=
  match ps_fieldd st with
  | None =>
      match ps_rd st with
      | None => Raise AttributeError
      | Some k =>
          Ok {| ps_group_name := ps_group_name st; ps_rd := ps_rd st;
                ps_fieldd := ps_fieldd st;
                ps_table_descriptors :=
                  update_rd k (fun td => add_tag td tag_ref tag_value)
                    (ps_table_descriptors st) |}
      end
  | Some (k, j) =>
      Ok {| ps_group_name := ps_group_name st; ps_rd := ps_rd st;
            ps_fieldd := ps_fieldd st;
            ps_table_descriptors :=
              update_rd k
                (fun td => set_field_descriptors td
                   (alter (fun fieldd => append_tag fieldd tag_ref tag_value) j
                      (field_descriptors td)))
                (ps_table_descriptors st) |}
  end.

(** The body of the loop of [_parse], for line [i] (0-based). *)
Definition parse_line (i : nat) (raw_line : string) (st : parse_state)
  : result parse_state :=
  let line := split_head "!" raw_line in
  if Line.blank line then Ok st
  else match Line.group line with
  | Some g =>
      Ok {| ps_group_name := Some (strip g); ps_rd := None; ps_fieldd := None;
            ps_table_descriptors := ps_table_descriptors st |}
  | None =>
  match Line.tag line with
  | Some content =>
      do tag <- (if negb (contains_char " " content) then Ok (strip content, None)
                 else match Line.tag_ref_value content with
                      | Some (tag_ref, v) => Ok (tag_ref, Some (strip v))
                      | None => Raise AttributeError
                      end);
      store_tag st (fst tag) (snd tag)
  | None =>
  match Line.named_field line with
  | Some (fieldd_type, n) =>
      let name := strip n in
      let name := if String.eqb name "" then None else Some name in
      new_field st fieldd_type name
  | None =>
  if Line.unnamed_fields line then
    let fields_l :=
      map strip (split_char "," (drop_last (strip (split_head "\note" line)))) in
    new_fields st fields_l
  else match Line.record_header line with
  | Some g1 =>
      let table_name := strip g1 in
      match ps_group_name st with
      | None => Raise (AssertionError "No group name.")
      | Some group_name =>
          let rd := TableDescriptor_init table_name group_name in
          if OD.mem (table_ref rd) (ps_table_descriptors st) then
            Raise (AssertionError "Record descriptor already registered.")
          else
            Ok {| ps_group_name := ps_group_name st;
                  ps_rd := Some (lower (table_ref rd));
                  ps_fieldd := None;
                  ps_table_descriptors :=
                    OD.set (lower (table_ref rd)) rd (ps_table_descriptors st) |}
      end
  | None =>
  if contains "Lead Input;" line || contains "Simulation Data;" line then
    Ok {| ps_group_name := ps_group_name st; ps_rd := None; ps_fieldd := None;
          ps_table_descriptors := ps_table_descriptors st |}
  else
    Raise (RuntimeError
             ("Line " +:+ str_of_Z (Z.of_nat (i + 1)) +:+ " not parsed: '" +:+
              raw_line +:+ "'."))
  end end end end.

Fixpoint parse_lines (i : nat) (lines : list string) (st : parse_state)
  : result parse_state :=
  match lines with
  | [] => Ok st
  | raw_line :: lines =>
      do st <- parse_line i raw_line st;
      parse_lines (S i) lines st
  end.

(** [Idd._parse], on the lines of the file *)
Definition _parse (lines : list string) (self : Idd) : result Idd :=
  do st <- parse_lines 0 lines
             {| ps_group_name := None; ps_rd := None; ps_fieldd := None;
                ps_table_descriptors := _table_descriptors self |};
  Ok {| _table_descriptors := ps_table_descriptors st;
        _pointed_rd_linkds_d := _pointed_rd_linkds_d self;
        _pointing_rd_linkds_d := _pointing_rd_linkds_d self |}.

(** [Idd._post_init] *)
Definition _post_init (self : Idd) : Idd :=
  {| _table_descriptors :=
       map (fun kv => (fst kv, post_init (snd kv))) (_table_descriptors self);
     _pointed_rd_linkds_d := _pointed_rd_linkds_d self;
     _pointing_rd_linkds_d := _pointing_rd_linkds_d self |}.

(** The four lines that put a link into a table under [ref_name]. *)
Definition add_link (lk : link) (d : link_table) (ref_name : string) : link_table :=
  let ref_lower_name := lower ref_name in
  let d := if bool_decide (is_Some (d !! ref_lower_name)) then d
           else <[ref_lower_name := []]> d in
  <[ref_lower_name := (default [] (d !! ref_lower_name) ++ [lk])%list]> d.

(** The body of the inner loop of [_link]. *)
Definition link_field (rd : TableDescriptor) (self : Idd) (i : nat)
    (fieldd : FieldDescriptor) : Idd :=
  let self :=
    if has_tag fieldd "reference" then
      {| _table_descriptors := _table_descriptors self;
         _pointed_rd_linkds_d :=
           fold_left (add_link (rd, i)) (get_tag fieldd "reference")
             (_pointed_rd_linkds_d self);
         _pointing_rd_linkds_d := _pointing_rd_linkds_d self |}
    else self in
  if has_tag fieldd "object-list" then
    {| _table_descriptors := _table_descriptors self;
       _pointed_rd_linkds_d := _pointed_rd_linkds_d self;
       _pointing_rd_linkds_d :=
         fold_left (add_link (rd, i)) (get_tag fieldd "object-list")
           (_pointing_rd_linkds_d self) |}
  else self.

(** [for i, fieldd in enumerate(l)], counting from [i] *)
Fixpoint link_fields (rd : TableDescriptor) (i : nat) (l : list FieldDescriptor)
    (self : Idd) : Idd :=
  match l with
  | [] => self
  | fieldd :: l => link_fields rd (S i) l (link_field rd self i fieldd)
  end.

(** [Idd._link] *)
Definition _link (self : Idd) : Idd :=
  fold_left (fun self rd => link_fields rd 0 (field_descriptors rd) self)
    (OD.values (_table_descriptors self)) self.

(** [Idd.__init__], on the lines of the file *)
Definition Idd_init (lines : list string) : result Idd :=
  let self := {| _table_descriptors := [];
                 _pointed_rd_linkds_d := ∅;
                 _pointing_rd_linkds_d := ∅ |} in
  do self <- _parse lines self;
  Ok (_link (_post_init self)).

End IddDefs.

(** [Idd.pointed_links]: what is returned, and what is logged. *)
Definition pointed_links (self : Idd) (link_insensitive_name : string)
  : list link * list log_record :=
  let link_lower_name := lower link_insensitive_name in
  match _pointed_rd_linkds_d self !! link_lower_name with
  | None =>
      ([], [LogInfo ("Idd useless ref -> '" +:+ link_insensitive_name +:+
                     "' ref is defined, but no object-list pointing " +:+
                     "(idd problem, nothing can be done).")])
  | Some l => (l, [])
  end.

(** [Idd.pointing_links] *)
Definition pointing_links (self : Idd) (link_insensitive_name : string)
  : list link * list log_record :=
  let link_lower_name := lower link_insensitive_name in
  match _pointing_rd_linkds_d self !! link_lower_name with
  | None =>
      ([], [LogDebug ("No pointing links ('object-list') with name '" +:+
                      link_insensitive_name +:+
                      "'. This may be an idd bug, or a wrong link_name may " +:+
                      "have been provided.")])
  | Some l => (l, [])
  end.

(** [Idd.get_record_descriptor] *)
Definition get_record_descriptor (self : Idd) (rd_ref : string) : result TableDescriptor :=
  match OD.get (lower rd_ref) (_table_descriptors self) with
  | Some rd => Ok rd
  | None => Raise (KeyError (lower rd_ref))
  end.

(** * Properties *)


(** * Definitions used to state the properties *)

(** The collapse of every maximal run of [p]-characters into one
    underscore, written at the first character of the run; [prev] tells that
    the preceding character already stands for such a run. *)
Fixpoint squeeze (p : ascii -> bool) (prev : bool) (s : string) : string :=
  match s with
  | "" => ""
  | String c s' =>
      if p c then
        if prev then squeeze p true s' else String "_" (squeeze p true s')
      else String c (squeeze p false s')
  end.

(** A separator: a non-word character or an underscore. *)
Definition is_sep (c : ascii) : bool := negb (is_word c) || Re.underscore c.

(** Two characters that differ at most by case, and two names that differ
    at most by the case of their characters. *)
Definition char_case_variant (a b : ascii) : Prop :=
  a = b \/ (is_upper a = true /\ b = lower_char a)
        \/ (is_upper b = true /\ a = lower_char b).

Inductive case_variant : string -> string -> Prop :=
| case_variant_nil : case_variant "" ""
| case_variant_cons a b s t :
    char_case_variant a b -> case_variant s t ->
    case_variant (String a s) (String b t).

(** The calls [append_tag(ref, value)] the parser makes on a descriptor. *)
Definition append_tags (self : FieldDescriptor) (calls : list (string * option string))
  : FieldDescriptor :=
  fold_left (fun fd call => append_tag fd (fst call) (snd call)) calls self.

(** What follows a text [a] is read with the flag [squeeze] leaves. *)
Definition flag_after (p : ascii -> bool) (b : bool) (a : string) : bool :=
  fold_left (fun _ c => p c) (list_ascii_of_string a) b.

(** The code points of the ASCII range. *)
Definition is_ascii (c : ascii) : bool := (code c <? 128)%N.

(** The characters of Python's rendering of a [float]: digits, sign, point,
    exponent mark, and the letters of [inf] and [nan]. *)
Definition float_char (c : ascii) : bool := Line.one_of "0123456789+-.einfa" c.

(** A text of [n] characters [c]. *)
Fixpoint repeat_char (c : ascii) (n : nat) : string :=
  match n with
  | O => ""
  | S n => String c (repeat_char c n)
  end.

(** Membership of a link in the bucket of a table. *)
Definition in_bucket (lk : link) (k : string) (d : link_table) : Prop :=
  exists l, d !! k = Some l /\ In lk l.

(** The outer loop of [_link], over the record descriptors [rds]. *)
Definition link_all (rds : list TableDescriptor) (self : Idd) : Idd :=
  fold_left (fun self rd => link_fields rd 0 (field_descriptors rd) self) rds self.

(** Field descriptors and lines used as concrete inputs. *)
Definition fd_alpha : FieldDescriptor :=
  mkFieldDescriptor "Zone" 0 "A" (Some "Name") (Some "name") ∅ None.

Definition fd_integer : FieldDescriptor :=
  append_tag (mkFieldDescriptor "Zone" 1 "N" (Some "Multiplier") (Some "multiplier") ∅ None)
    "type" (Some "integer").

Definition fd_real : FieldDescriptor :=
  mkFieldDescriptor "Zone" 2 "N" (Some "Volume") (Some "volume") ∅ None.

Definition fd_object_list : FieldDescriptor :=
  append_tags
    (mkFieldDescriptor "Wall" 0 "A" (Some "Zone Name") (Some "zone_name") ∅ None)
    [("object-list", Some "ZoneNames"); ("object-list", Some "SpaceNames")].

Definition nl : string := String Line.newline "".

(** A text-only stand-in for [float] and [unidecode] where a concrete one
    is needed: no text is read as a float, ASCII text is left as it is. *)
Definition no_float (s : string) : option Z := None.
Definition no_float_of_int (n : Z) : option Z := None.
Definition unidecode_id (s : string) : string := s.

(** A schema whose referring record ([Wall], with an object-list field)
    is declared before the record it refers to ([Zone], with a reference
    field), and the catalogue built from it. *)
Definition example_lines : list string :=
  [ "! a small schema" +:+ nl;
    "\group Surfaces" +:+ nl;
    "Wall," +:+ nl;
    "  A1 , \field Name" +:+ nl;
    "  A2 ; \field Zone Name" +:+ nl;
    "       \type object-list" +:+ nl;
    "       \object-list ZoneNames" +:+ nl;
    "\group Thermal Zones" +:+ nl;
    "Zone," +:+ nl;
    "  A1 ; \field Name" +:+ nl;
    "       \reference ZoneNames" +:+ nl ].

Definition empty_idd : Idd :=
  {| _table_descriptors := []; _pointed_rd_linkds_d := ∅;
     _pointing_rd_linkds_d := ∅ |}.

Definition idd_of (r : result Idd) : Idd :=
  match r with
  | Ok idd => idd
  | Raise _ => empty_idd
  end.

Definition example_idd : Idd :=
  idd_of (Idd_init table_name_to_ref (fun rd => rd) example_lines).

Definition example_wall : TableDescriptor :=
  default (mkTableDescriptor "" "" "" [] ∅)
    (OD.get "wall" (_table_descriptors example_idd)).

Definition example_zone : TableDescriptor :=
  default (mkTableDescriptor "" "" "" [] ∅)
    (OD.get "zone" (_table_descriptors example_idd)).

(** A schema that declares the record [Zone] twice, and one that declares
    [zone] twice. *)
Definition duplicate_lines : list string :=
  [ "\group Thermal Zones" +:+ nl;
    "Zone," +:+ nl;
    "  A1 ; \field Name" +:+ nl;
    "Zone," +:+ nl ].

Definition duplicate_lower_lines : list string :=
  [ "\group Thermal Zones" +:+ nl;
    "zone," +:+ nl;
    "  A1 ; \field Name" +:+ nl;
    "zone," +:+ nl ].

(** The names, keys and numbers of fields of the records of a catalogue. *)
Definition summary (idd : Idd) : list (string * string * nat) :=
  map (fun kv => (fst kv, table_name (snd kv), length (field_descriptors (snd kv))))
    (_table_descriptors idd).

(** The two-line record of the specification's test: one group, one
    record with a single numeric field named [Test Field] and tagged
    [\minimum 0]. *)
Definition minimal_lines : list string :=
  [ "\group Simulation Parameters" +:+ nl;
    "Version," +:+ nl;
    "  N1 ; \field Test Field" +:+ nl;
    "       \minimum 0" +:+ nl ].

Definition minimal_idd : Idd :=
  idd_of (Idd_init table_name_to_ref (fun rd => rd) minimal_lines).

(** The values that a sequence of [append_tag] calls gives to the tag [r],
    in the order of the calls, and whether a call names [r] at all. *)
Definition values_given (r : string) (calls : list (string * option string))
  : list string :=
  flat_map (fun call =>
              if String.eqb (fst call) r then
                match snd call with Some v => [v] | None => [] end
              else []) calls.

Definition named_in (r : string) (calls : list (string * option string)) : bool :=
  existsb (fun call => String.eqb (fst call) r) calls.

(** The tag names that the cascade of [detailed_type] looks at. *)
Definition cascade_tags : list string :=
  ["reference"; "reference-class-name"; "type"; "key"; "object-list"; "external-list"].

(** The detailed types that [deserialize] knows. *)
Definition known_types : list string :=
  ["integer"; "real"; "alpha"; "choice"; "node"; "external-list"; "reference";
   "object-list"].

Definition text_types : list string := ["alpha"; "choice"; "node"; "external-list"].

Definition sentinels : list string := ["autocalculate"; "autosize"; "useweatherfile"].

(** A field with a [\type] tag of a kind [deserialize] does not know. *)
Definition fd_unknown : FieldDescriptor :=
  append_tag (mkFieldDescriptor "Zone" 3 "A" (Some "Shape") (Some "shape") ∅ None)
    "type" (Some "Polygon").

(** A reference field, and an integer field that retains case. *)
Definition fd_reference : FieldDescriptor :=
  append_tags (mkFieldDescriptor "Zone" 0 "A" (Some "Name") (Some "name") ∅ None)
    [("required-field", None); ("reference", Some "ZoneNames");
     ("reference", Some "SpaceNames")].

Definition fd_integer_retaincase : FieldDescriptor :=
  append_tag fd_integer "retaincase" None.

(** A text that does not begin, and one that does not end, with white
    space. *)
Definition starts_ok (s : string) : bool :=
  match s with
  | "" => true
  | String c _ => negb (is_space c)
  end.

Fixpoint ends_ok (s : string) : bool :=
  match s with
  | "" => true
  | String c "" => negb (is_space c)
  | String _ s' => ends_ok s'
  end.

Definition is_letter (c : ascii) : bool := is_upper c || is_lower c.

(** The characters of a ref: lower-case letters, digits, the underscore. *)
Definition ident_char (c : ascii) : bool :=
  is_lower c || is_digit c || Ascii.eqb c "_".

(** The links that the fields [l] of [rd], numbered from [i], declare under
    the key [k] through the tag [tag]: one for every value of the tag whose
    lower-casing is [k], field after field; and those of a list of record
    descriptors, one descriptor after the other. *)
Fixpoint declared_by_fields (tag k : string) (rd : TableDescriptor) (i : nat)
    (l : list FieldDescriptor) : list link :=
  match l with
  | [] => []
  | fieldd :: l =>
      (flat_map (fun v => if String.eqb (lower v) k then [(rd, i)] else [])
         (get_tag fieldd tag)
       ++ declared_by_fields tag k rd (S i) l)%list
  end.

Definition declared (tag k : string) (rds : list TableDescriptor) : list link :=
  flat_map (fun rd => declared_by_fields tag k rd 0 (field_descriptors rd)) rds.

(** The keys of a catalogue are distinct, and each is the lower-cased
    [table_ref] of its descriptor. *)
Definition keys_ok (d : OD.t TableDescriptor) : Prop :=
  List.NoDup (map fst d) /\
  Forall (fun kv => fst kv = lower (table_ref (snd kv))) d.

(** The state in which [_parse] starts. *)
Definition initial_state : parse_state :=
  {| ps_group_name := None; ps_rd := None; ps_fieldd := None;
     ps_table_descriptors := [] |}.

(** A table of links has no empty bucket. *)
Definition no_empty_bucket (d : link_table) : Prop :=
  forall k l, d !! k = Some l -> l <> [].

(** The floats of whole value, as integers, with the rendering Python
    gives them ([-15.0]) and the reading of such a rendering: a concrete
    [float], [str] and [float(s)] where one is needed. *)
Definition whole_float_str (z : Z) : string := str_of_Z z +:+ ".0".

Definition whole_float_of_str (s : string) : option Z :=
  let n := String.length s in
  if String.eqb (String.substring (n - 2) 2 s) ".0" then
    int_of_str (String.substring 0 (n - 2) s)
  else None.

(** * Properties *)

(** ** The embedding on concrete inputs *)

Example var_name_to_ref_examples :
  var_name_to_ref "Zone  Name" = "zone_name" /\
  var_name_to_ref "  a__b - c" = "_a_b_c" /\
  var_name_to_ref "Test Field" = "test_field".
Proof. repeat split. Qed.

Example str_methods_examples :
  strip "  a b  " = "a b" /\
  split_char "," "A1, A2;A3" = ["A1"; " A2;A3"] /\
  split_head "!" "ab!c!d" = "ab" /\
  drop_last "abc" = "ab" /\
  collapse_spaces ("  a   b" +:+ nl) = "a b".
Proof. repeat split. Qed.

Example int_of_str_examples :
  int_of_str "-12_3" = Some (-123)%Z /\ int_of_str "+7" = Some 7%Z /\
  int_of_str " 42 " = Some 42%Z /\ int_of_str "1__2" = None /\
  int_of_str "4 2" = None /\ int_of_str "" = None /\ int_of_str "1.5" = None /\
  str_of_Z (-305) = "-305" /\ str_of_Z 0 = "0".
Proof. repeat split. Qed.

Example minimal_schema_parsed :
  Idd_init table_name_to_ref (fun rd => rd) minimal_lines = Ok minimal_idd /\
  summary minimal_idd = [("version", "Version", 1)] /\
  map (fun fd => (ref fd, fst (detailed_type fd), get_tag fd "minimum"))
      (flat_map field_descriptors (OD.values (_table_descriptors minimal_idd)))
  = [(Some "test_field", Ok "real", ["0"])].
Proof. repeat split; vm_compute; reflexivity. Qed.

Example unparsed_line_fails :
  Idd_init table_name_to_ref (fun rd => rd)
    ["\group G" +:+ nl; "Zone," +:+ nl; "not a line" +:+ nl] =
  Raise (RuntimeError ("Line 3 not parsed: 'not a line" +:+ nl +:+ "'.")).
Proof. vm_compute. reflexivity. Qed.

Example header_without_group_fails :
  Idd_init table_name_to_ref (fun rd => rd) ["Zone," +:+ nl] =
  Raise (AssertionError "No group name.").
Proof. vm_compute. reflexivity. Qed.

Example example_schema_parsed :
  summary example_idd = [("wall", "Wall", 2); ("zone", "Zone", 1)].
Proof. vm_compute. reflexivity. Qed.

(** ** Characters *)

Ltac by_cases_on_char c :=
  destruct c as [[] [] [] [] [] [] [] []]; try reflexivity; try discriminate.

Lemma lower_char_idem c : lower_char (lower_char c) = lower_char c.
Proof. by_cases_on_char c. Qed.

Lemma is_word_lower_char c : is_word (lower_char c) = is_word c.
Proof. by_cases_on_char c. Qed.

Lemma not_var_classes c : Re.not_var c = Re.not_var_first c.
Proof. by_cases_on_char c. Qed.

Lemma is_sep_lower_char c : is_sep (lower_char c) = is_sep c.
Proof. by_cases_on_char c. Qed.

Lemma lower_char_non_sep c : is_sep c = false -> is_upper (lower_char c) = false.
Proof. by_cases_on_char c. Qed.

Lemma lower_char_not_upper c : is_upper c = false -> lower_char c = c.
Proof. unfold lower_char. now intros ->. Qed.

Lemma underscore_eq c : Re.underscore c = true -> c = "_"%char.
Proof. unfold Re.underscore. now intros H%Ascii.eqb_eq. Qed.

Lemma is_sep_split c :
  is_sep c = Re.not_var c || Re.underscore c.
Proof. by_cases_on_char c. Qed.

Lemma underscore_is_word c : Re.underscore c = true -> Re.not_var c = false.
Proof. intros ->%underscore_eq. reflexivity. Qed.

(** ** Strings *)

Lemma append_nil_r s : s +:+ "" = s.
Proof. induction s; simpl; congruence. Qed.

Lemma append_assoc s t u : (s +:+ t) +:+ u = s +:+ (t +:+ u).
Proof. induction s; simpl; congruence. Qed.

Lemma lower_app s t : lower (s +:+ t) = lower s +:+ lower t.
Proof. induction s; simpl; congruence. Qed.

Lemma lower_idem s : lower (lower s) = lower s.
Proof. induction s; simpl; [easy|]. now rewrite lower_char_idem, IHs. Qed.

Lemma all_chars_app p s t :
  all_chars p (s +:+ t) = all_chars p s && all_chars p t.
Proof. induction s; simpl; [easy|]. now rewrite IHs, andb_assoc. Qed.

Lemma all_chars_lower_sep s : all_chars is_sep (lower s) = all_chars is_sep s.
Proof. induction s; simpl; [easy|]. now rewrite is_sep_lower_char, IHs. Qed.

Lemma case_variant_lower s t : case_variant s t -> lower s = lower t.
Proof.
  induction 1 as [|a b s t Hc _ IH]; simpl; [easy|].
  rewrite IH. f_equal.
  destruct Hc as [->|[[_ ->]|[_ ->]]]; now rewrite ?lower_char_idem.
Qed.

Lemma case_variant_of_lower s : case_variant s (lower s).
Proof.
  induction s as [|c s IH]; simpl; constructor; [|exact IH].
  unfold char_case_variant. destruct (is_upper c) eqn:E.
  - right; left. split; reflexivity.
  - left. now rewrite lower_char_not_upper.
Qed.

(** ** [re.sub] over runs and [squeeze] *)

Lemma sub_runs_squeeze p min :
  (forall run, all_chars p run = true -> run <> "" -> Re.flush min run = "_") ->
  forall s run, all_chars p run = true ->
    Re.sub_runs p min run s =
    match run with
    | "" => squeeze p false s
    | _ => "_" +:+ squeeze p true s
    end.
Proof.
  intros Hflush. induction s as [|c s IH]; intros run Hrun; simpl.
  - destruct run; [reflexivity|]. now apply Hflush.
  - destruct (p c) eqn:Hc.
    + rewrite IH by (rewrite all_chars_app; simpl; now rewrite Hrun, Hc).
      destruct run; reflexivity.
    + rewrite (IH "") by reflexivity.
      destruct run; [reflexivity|]. now rewrite Hflush.
Qed.

Lemma flush_one p run :
  all_chars p run = true -> run <> "" -> Re.flush 1 run = "_".
Proof. intros _ H. destruct run; [easy|reflexivity]. Qed.

Lemma flush_underscores run :
  all_chars Re.underscore run = true -> run <> "" -> Re.flush 2 run = "_".
Proof.
  intros H Hne. destruct run as [|a [|b r]]; [easy| |reflexivity].
  simpl in H. apply andb_prop in H as [->%underscore_eq _]. reflexivity.
Qed.

Lemma squeeze_ext p q b s :
  (forall c, p c = q c) -> squeeze p b s = squeeze q b s.
Proof.
  intros H. revert b. induction s as [|c s IH]; intros b; simpl; [easy|].
  rewrite H. destruct (q c), b; now rewrite ?IH.
Qed.

(** The two substitutions of [var_name_to_ref], one after the other, collapse
    the runs of separators. *)
Lemma squeeze_twice s : forall a b : bool,
  (a = true -> b = true) ->
  squeeze Re.underscore b (squeeze Re.not_var a s) = squeeze is_sep b s.
Proof.
  induction s as [|c s IH]; intros a b Hab; simpl; [easy|].
  rewrite is_sep_split.
  destruct (Re.not_var c) eqn:Hn; simpl.
  - destruct a.
    + rewrite (Hab eq_refl). now apply IH.
    + simpl. destruct b; now rewrite IH.
  - destruct (Re.underscore c) eqn:Hu; simpl.
    + destruct b; now rewrite IH.
    + now rewrite IH.
Qed.

(** [var_name_to_ref] refines the collapse of separator runs in the
    lower-cased name. *)
Lemma var_name_to_ref_squeeze name :
  var_name_to_ref name = squeeze is_sep false (lower name).
Proof.
  unfold var_name_to_ref.
  rewrite (sub_runs_squeeze Re.not_var 1 (flush_one _)) by reflexivity.
  rewrite (sub_runs_squeeze Re.underscore 2 flush_underscores) by reflexivity.
  now apply squeeze_twice.
Qed.

Lemma squeeze_lower b s :
  lower (squeeze is_sep b s) = squeeze is_sep b (lower s).
Proof.
  revert b. induction s as [|c s IH]; intros b; simpl; [easy|].
  rewrite is_sep_lower_char. destruct (is_sep c) eqn:Hc.
  - destruct b; simpl; now rewrite IH.
  - simpl. now rewrite IH.
Qed.

Lemma squeeze_idem s : forall b,
  squeeze is_sep b (squeeze is_sep b s) = squeeze is_sep b s.
Proof.
  induction s as [|c s IH]; intros b; simpl; [easy|].
  destruct (is_sep c) eqn:Hc.
  - destruct b; simpl; now rewrite IH.
  - simpl. now rewrite Hc, IH.
Qed.

Lemma squeeze_app p a : forall b t,
  squeeze p b (a +:+ t) = squeeze p b a +:+ squeeze p (flag_after p b a) t.
Proof.
  unfold flag_after.
  induction a as [|c a IH]; intros b t; simpl; [easy|].
  destruct (p c) eqn:Hc.
  - destruct b; simpl; now rewrite IH.
  - simpl. now rewrite IH.
Qed.

Lemma squeeze_run p r : forall b t,
  all_chars p r = true -> r <> "" ->
  squeeze p b (r +:+ t) = (if b then "" else "_") +:+ squeeze p true t.
Proof.
  induction r as [|c r IH]; intros b t Hr Hne; [easy|].
  simpl in Hr. apply andb_prop in Hr as [Hc Hr]. simpl. rewrite Hc.
  destruct r as [|d r].
  - destruct b; reflexivity.
  - destruct b; rewrite IH by easy; reflexivity.
Qed.

(** ** C2: [var_name_to_ref] *)

(** C2, the claim as stated fails: the trailing run of ["Zone  Name!!"] is
    kept as an underscore, so that name does not yield ["zone_name"]. *)
Lemma C2_trailing_run_counterexample :
  ~ (var_name_to_ref "Zone  Name!!" = "zone_name" /\
     var_name_to_ref "zone_name" = "zone_name").
Proof. intros [H _]. vm_compute in H. discriminate H. Qed.

(** C2, amended: the ref of a name is its lower-casing with every maximal
    run of separators (non-word characters, underscores) turned into one
    underscore, also at the start and at the end; deriving a ref is
    idempotent; names that differ only by the case of their characters have
    the same ref; names that differ only by which non-empty run of
    separators stands at one place have the same ref; ["Zone  Name"] and
    ["zone_name"] both yield ["zone_name"], while the trailing run of
    ["Zone  Name!!"] yields a trailing underscore. *)
Theorem C2_var_name_to_ref_collapses :
  (forall name, var_name_to_ref name = squeeze is_sep false (lower name)) /\
  (forall name, var_name_to_ref (var_name_to_ref name) = var_name_to_ref name) /\
  (forall n1 n2, case_variant n1 n2 -> var_name_to_ref n1 = var_name_to_ref n2) /\
  (forall a b r1 r2,
     r1 <> "" -> r2 <> "" ->
     all_chars is_sep r1 = true -> all_chars is_sep r2 = true ->
     var_name_to_ref (a +:+ (r1 +:+ b)) = var_name_to_ref (a +:+ (r2 +:+ b))) /\
  var_name_to_ref "Zone  Name" = "zone_name" /\
  var_name_to_ref "zone_name" = "zone_name" /\
  var_name_to_ref "Zone  Name!!" = "zone_name_".
Proof.
  split; [|split; [|split; [|split; [|repeat split]]]].
  - exact var_name_to_ref_squeeze.
  - intros name. rewrite !var_name_to_ref_squeeze.
    now rewrite squeeze_lower, lower_idem, squeeze_idem.
  - intros n1 n2 H. rewrite !var_name_to_ref_squeeze.
    now rewrite (case_variant_lower _ _ H).
  - intros a b r1 r2 H1 H2 S1 S2. rewrite !var_name_to_ref_squeeze.
    rewrite !lower_app, !(squeeze_app _ (lower a)).
    rewrite !squeeze_run; try (now rewrite all_chars_lower_sep).
    + reflexivity.
    + now destruct r2.
    + now destruct r1.
Qed.

Lemma C2_var_name_to_ref_collapses_witness :
  var_name_to_ref "ZONE  Name" = var_name_to_ref "zone  name" /\
  var_name_to_ref ("Zone" +:+ (" - " +:+ "Name")) =
  var_name_to_ref ("Zone" +:+ ("__" +:+ "Name")).
Proof.
  split.
  - apply (proj1 (proj2 (proj2 C2_var_name_to_ref_collapses))).
    repeat (constructor; [first [now left | right; left; split; reflexivity]|]).
    constructor.
  - apply (proj1 (proj2 (proj2 (proj2 C2_var_name_to_ref_collapses))));
      first [discriminate | reflexivity].
Defined.

(** ** Tag stores *)

Lemma has_key_true r (t : tag_store) : has_key r t = true <-> is_Some (t !! r).
Proof. unfold has_key. apply bool_decide_eq_true. Qed.

Lemma has_key_false r (t : tag_store) : has_key r t = false <-> t !! r = None.
Proof.
  unfold has_key. rewrite bool_decide_eq_false. rewrite <- eq_None_not_Some. easy.
Qed.

Lemma tags_append_has_key r v (t : tag_store) : has_key r (tags_append r v t) = true.
Proof.
  apply has_key_true. unfold tags_append.
  destruct (has_key r t) eqn:E.
  - apply has_key_true in E. destruct v; [|exact E].
    rewrite lookup_insert_eq. eauto.
  - destruct v; rewrite ?lookup_insert_eq; eauto.
Qed.

Lemma tags_append_mono r r' v (t : tag_store) :
  has_key r t = true -> has_key r (tags_append r' v t) = true.
Proof.
  intros H. destruct (decide (r' = r)) as [->|Hne]; [apply tags_append_has_key|].
  apply has_key_true. apply has_key_true in H. unfold tags_append.
  destruct (has_key r' t), v; rewrite ?lookup_insert_ne by easy; exact H.
Qed.

(** ** Construction of a field descriptor and [append_tag] *)

Lemma FieldDescriptor_init_Ok td i bt nm fd :
  FieldDescriptor_init td i bt nm = Ok fd ->
  (bt = "A" \/ bt = "N") /\ basic_type fd = bt /\ tags fd = ∅ /\
  _detailed_type fd = None /\ ref fd = option_map var_name_to_ref nm /\
  index fd = i /\ table_descriptor fd = td.
Proof.
  unfold FieldDescriptor_init.
  destruct (String.eqb bt "A") eqn:EA; simpl.
  - apply String.eqb_eq in EA. intros [= <-]. simpl. auto 10.
  - destruct (String.eqb bt "N") eqn:EN; simpl; [|discriminate].
    apply String.eqb_eq in EN. intros [= <-]. simpl. auto 10.
Qed.



Lemma append_tags_fields fd calls :
  basic_type (append_tags fd calls) = basic_type fd /\
  _detailed_type (append_tags fd calls) = _detailed_type fd.
Proof.
  revert fd. induction calls as [|c calls IH]; intros fd; [easy|].
  change (append_tags fd (c :: calls))
    with (append_tags (append_tag fd (fst c) (snd c)) calls).
  now rewrite (proj1 (IH _)), (proj2 (IH _)).
Qed.

(** ** C3 and C10: the cascade of [detailed_type] *)

Lemma resolve_reference fd :
  has_key "reference" (tags fd) = true \/
  has_key "reference-class-name" (tags fd) = true ->
  resolve_detailed_type fd = Ok "reference".
Proof.
  intros H. unfold resolve_detailed_type.
  destruct H as [-> | ->]; [reflexivity|]. now rewrite orb_true_r.
Qed.

(** C3: a field built by the constructor and any calls of [append_tag]
    whose tags hold ["reference"] or ["reference-class-name"] has detailed
    type ["reference"], whatever other tags it holds, at the first read and
    at the reads that follow. *)
Theorem C3_reference_takes_precedence td i bt nm fd0 calls :
  FieldDescriptor_init td i bt nm = Ok fd0 ->
  let fd := append_tags fd0 calls in
  has_key "reference" (tags fd) = true \/
  has_key "reference-class-name" (tags fd) = true ->
  detailed_type fd = (Ok "reference", set_detailed_type fd "reference") /\
  detailed_type (set_detailed_type fd "reference") =
    (Ok "reference", set_detailed_type fd "reference").
Proof.
  intros Hinit fd Href.
  apply FieldDescriptor_init_Ok in Hinit as (_ & _ & _ & Hmemo & _).
  split; [|reflexivity].
  unfold detailed_type.
  replace (_detailed_type fd) with (@None string)
    by (subst fd; now rewrite (proj2 (append_tags_fields _ _))).
  now rewrite resolve_reference.
Qed.

Lemma C3_reference_takes_precedence_witness :
  fst (detailed_type
         (append_tags
            (mkFieldDescriptor "Zone" 0 "A" (Some "Name") (Some "name") ∅ None)
            [("type", Some "alpha"); ("reference", Some "ZoneNames")]))
  = Ok "reference".
Proof.
  refine (f_equal fst (proj1 (C3_reference_takes_precedence "Zone" 0 "A" (Some "Name")
            _ [("type", Some "alpha"); ("reference", Some "ZoneNames")] _ _))).
  - reflexivity.
  - left. vm_compute. reflexivity.
Defined.





(** ** White space *)

Lemma lstrip_empty s : lstrip s = "" <-> all_chars is_space s = true.
Proof.
  induction s as [|c s IH]; simpl; [easy|].
  destruct (is_space c); simpl; [exact IH | easy].
Qed.

Lemma rstrip_empty s : rstrip s = "" <-> all_chars is_space s = true.
Proof.
  induction s as [|c s IH]; simpl; [easy|].
  destruct (rstrip s) eqn:E.
  - destruct (is_space c); simpl; [|easy].
    split; intros _; [now apply IH | reflexivity].
  - split; [discriminate|]. intros [_ H]%andb_prop.
    apply IH in H. discriminate H.
Qed.

Lemma lstrip_all_space s :
  all_chars is_space (lstrip s) = all_chars is_space s.
Proof.
  induction s as [|c s IH]; simpl; [easy|].
  destruct (is_space c) eqn:E; simpl; [exact IH | now rewrite E].
Qed.

Lemma sub_spaces_empty s : Re.sub_spaces false s = "" <-> s = "".
Proof. destruct s as [|c s]; simpl; [easy|]. destruct (is_space c); easy. Qed.

(** The text left by the collapse of white space is empty exactly for a
    text of white space only. *)
Lemma collapse_spaces_empty s :
  collapse_spaces s = "" <-> all_chars is_space s = true.
Proof.
  unfold collapse_spaces, strip.
  rewrite sub_spaces_empty, rstrip_empty. now rewrite lstrip_all_space.
Qed.

Lemma lstrip_no_space s :
  all_chars (fun c => negb (is_space c)) s = true -> lstrip s = s.
Proof. destruct s as [|c s]; simpl; [easy|]. now destruct (is_space c). Qed.

Lemma rstrip_no_space s :
  all_chars (fun c => negb (is_space c)) s = true -> rstrip s = s.
Proof.
  induction s as [|c s IH]; simpl; [easy|].
  intros [Hc Hs]%andb_prop. rewrite (IH Hs).
  destruct s; [now destruct (is_space c) | reflexivity].
Qed.

Lemma sub_spaces_no_space s b :
  all_chars (fun c => negb (is_space c)) s = true -> Re.sub_spaces b s = s.
Proof.
  revert b. induction s as [|c s IH]; intros b; simpl; [easy|].
  intros [Hc Hs]%andb_prop. destruct (is_space c); [easy|]. now rewrite IH.
Qed.

Lemma strip_no_space s :
  all_chars (fun c => negb (is_space c)) s = true -> strip s = s.
Proof. intros H. unfold strip. now rewrite lstrip_no_space, rstrip_no_space. Qed.

Lemma collapse_spaces_no_space s :
  all_chars (fun c => negb (is_space c)) s = true -> collapse_spaces s = s.
Proof.
  intros H. unfold collapse_spaces. now rewrite strip_no_space, sub_spaces_no_space.
Qed.

Lemma lower_no_upper s :
  all_chars (fun c => negb (is_upper c)) s = true -> lower s = s.
Proof.
  induction s as [|c s IH]; simpl; [easy|].
  intros [Hc Hs]%andb_prop. rewrite (IH Hs), lower_char_not_upper; [easy|].
  now destruct (is_upper c).
Qed.

Lemma all_chars_impl (p q : ascii -> bool) s :
  (forall c, p c = true -> q c = true) ->
  all_chars p s = true -> all_chars q s = true.
Proof.
  intros Hpq. induction s as [|c s IH]; simpl; [easy|].
  intros [Hc Hs]%andb_prop. now rewrite (Hpq _ Hc), IH.
Qed.

(** ** Numerals *)

Lemma float_char_plain c :
  float_char c = true ->
  is_space c = false /\ is_upper c = false /\ is_ascii c = true.
Proof. by_cases_on_char c; intros _; repeat split. Qed.

Lemma is_digit_float_char c : is_digit c = true -> float_char c = true.
Proof. by_cases_on_char c. Qed.

Lemma float_text_plain s :
  all_chars float_char s = true ->
  all_chars (fun c => negb (is_space c)) s = true /\
  all_chars (fun c => negb (is_upper c)) s = true /\
  all_chars is_ascii s = true.
Proof.
  intros H. repeat split; revert H; apply all_chars_impl;
    intros c (H1 & H2 & H3)%float_char_plain; now rewrite ?H1, ?H2, ?H3.
Qed.

Ltac read_digit :=
  simpl NilEmpty.string_of_uint; cbv beta iota delta [digits_value];
  fold digits_value;
  match goal with
  | |- context [is_digit ?c] =>
      change (is_digit c) with true;
      let v := eval vm_compute in (digit_value c) in
      change (digit_value c) with v
  end; cbv iota.

Lemma digits_of_uint_acc d : forall acc,
  digits_value (Z.pos acc) true (NilEmpty.string_of_uint d) =
  Some (Z.pos (Pos.of_uint_acc d acc)).
Proof.
  induction d; intros acc; [reflexivity|..]; read_digit;
    cbn [Pos.of_uint_acc]; rewrite <- IHd; f_equal; lia.
Qed.

Lemma digits_of_uint d : forall b,
  d <> Decimal.Nil \/ b = true ->
  digits_value 0 b (NilEmpty.string_of_uint d) = Some (Z.of_N (Pos.of_uint d)).
Proof.
  induction d; intros b Hb;
    [destruct Hb as [Hb| ->]; [easy|reflexivity]
    | read_digit; apply IHd; now right
    | ..];
    read_digit; cbn [Pos.of_uint Z.of_N]; rewrite <- digits_of_uint_acc;
    reflexivity.
Qed.

Lemma to_uint_not_nil p : Pos.to_uint p <> Decimal.Nil.
Proof.
  intros H. pose proof (DecimalPos.Unsigned.of_to p) as E.
  rewrite H in E. discriminate E.
Qed.

Lemma all_digits_uint d : all_chars is_digit (NilEmpty.string_of_uint d) = true.
Proof. induction d; simpl; [reflexivity|..]; exact IHd. Qed.

Lemma str_of_Z_cases n :
  (exists p, n = Z.pos p /\ str_of_Z n = NilEmpty.string_of_uint (Pos.to_uint p)) \/
  (exists p, n = Z.neg p /\
             str_of_Z n = String "-" (NilEmpty.string_of_uint (Pos.to_uint p))) \/
  (n = 0%Z /\ str_of_Z n = "0").
Proof.
  destruct n as [|p|p]; [right; right; easy | left | right; left];
    exists p; (split; [reflexivity|]); unfold str_of_Z; simpl;
    unfold NilZero.string_of_uint; pose proof (to_uint_not_nil p);
    now destruct (Pos.to_uint p).
Qed.

Lemma str_of_Z_float_text n : all_chars float_char (str_of_Z n) = true.
Proof.
  destruct (str_of_Z_cases n) as [(p & _ & ->) | [(p & _ & ->) | [_ ->]]];
    [|simpl|reflexivity];
    apply (all_chars_impl is_digit); auto using is_digit_float_char, all_digits_uint.
Qed.

Lemma uint_first_digit d :
  d <> Decimal.Nil ->
  exists c r, NilEmpty.string_of_uint d = String c r /\ is_digit c = true.
Proof. destruct d; [easy|..]; intros _; simpl; eauto. Qed.

(** [int(str(n))] is [n]. *)
Lemma int_of_str_of_Z n : int_of_str (str_of_Z n) = Some n.
Proof.
  unfold int_of_str.
  rewrite strip_no_space by (apply float_text_plain, str_of_Z_float_text).
  destruct (str_of_Z_cases n) as [(p & -> & ->) | [(p & -> & ->) | [-> ->]]];
    [| |reflexivity].
  - destruct (uint_first_digit _ (to_uint_not_nil p)) as (c & r & E & Hc).
    rewrite E.
    replace (Ascii.eqb c "-") with false by (revert Hc; by_cases_on_char c).
    replace (Ascii.eqb c "+") with false by (revert Hc; by_cases_on_char c).
    rewrite <- E, digits_of_uint by (left; apply to_uint_not_nil).
    now rewrite DecimalPos.Unsigned.of_to.
  - change (Ascii.eqb "-" "-") with true. cbv iota.
    rewrite digits_of_uint by (left; apply to_uint_not_nil).
    now rewrite DecimalPos.Unsigned.of_to.
Qed.

(** ** [deserialize] *)

Lemma detailed_type_keeps self :
  tags (snd (detailed_type self)) = tags self /\
  forall v, get_error_location_message (snd (detailed_type self)) v =
            get_error_location_message self v.
Proof.
  unfold detailed_type. destruct (_detailed_type self); [easy|].
  destruct (resolve_detailed_type self); easy.
Qed.

Lemma resolve_no_validation_error self msg :
  resolve_detailed_type self <> Raise (FieldValidationError msg).
Proof.
  unfold resolve_detailed_type.
  repeat match goal with
         | |- context [if ?b then _ else _] => destruct b
         | |- context [match ?o with Some _ => _ | None => _ end] => destruct o
         | |- context [match ?l with [] => _ | _ :: _ => _ end] => destruct l
         end; discriminate.
Qed.

Lemma detailed_type_no_validation_error self msg :
  fst (detailed_type self) <> Raise (FieldValidationError msg).
Proof.
  unfold detailed_type. destruct (_detailed_type self); [discriminate|].
  pose proof (resolve_no_validation_error self msg).
  destruct (resolve_detailed_type self); simpl; congruence.
Qed.

Section DeserializeFacts.

Context {float : Type}.
Variable float_of_str : string -> option float.
Variable float_of_int : Z -> option float.
Variable unidecode : string -> string.

(* The functions of the section, at its [float] and [unidecode]. *)
Local Abbreviation deser := (deserialize float_of_str float_of_int unidecode).
Local Abbreviation deser_typed := (deserialize_typed float_of_str float_of_int).
Local Abbreviation norm := (normalize unidecode).

(** The three ways of [deserialize] on a text. *)
Lemma deserialize_str self s :
  deser self (VStr s) =
  if String.eqb (collapse_spaces s) "" then (Ok TNone, self)
  else if (100 <=? String.length (norm self s))%nat then
    (Raise (FieldValidationError (too_long_message self (norm self s))), self)
  else deser_typed self (VStr (norm self s)).
Proof.
  unfold deserialize, normalize.
  destruct (String.eqb (collapse_spaces s) ""); reflexivity.
Qed.

(** The dispatch never raises the error of the length check. *)
Lemma deserialize_typed_not_too_long self value v :
  fst (deser_typed self value) <>
  Raise (FieldValidationError (too_long_message self v)).
Proof.
  unfold deserialize_typed.
  pose proof (detailed_type_no_validation_error self (too_long_message self v)) as Hd.
  destruct (detailed_type self) as [[dt|e] self']; simpl in *;
    [clear Hd|intros [= ->]; now apply Hd].
  unfold too_long_message.
  repeat match goal with
         | |- context [if ?b then _ else _] => destruct b
         | |- context [match ?o with Some _ => _ | None => _ end] => destruct o
         | |- context [match ?l with [] => _ | _ :: _ => _ end] => destruct l
         | |- context [match ?x with VNone => _ | _ => _ end] => destruct x
         end; discriminate.
Qed.

(** The dispatch on an alpha field and a text. *)
Lemma deserialize_typed_alpha self v :
  fst (detailed_type self) = Ok "alpha" ->
  fst (deser_typed self (VStr v)) = Ok (TStr v).
Proof.
  unfold deserialize_typed.
  destruct (detailed_type self) as [r self']; simpl. now intros ->.
Qed.

(** A normalized text of 100 characters or more is refused. *)
Lemma deserialize_too_long self s :
  100 <= String.length (norm self s) ->
  fst (deser self (VStr s)) =
  Raise (FieldValidationError (too_long_message self (norm self s))).
Proof.
  intros Hlen. rewrite deserialize_str.
  destruct (String.eqb (collapse_spaces s) "") eqn:E.
  - exfalso. unfold normalize in Hlen. rewrite E in Hlen. simpl in Hlen. lia.
  - apply Nat.leb_le in Hlen. now rewrite Hlen.
Qed.

(** C4: [deserialize(None)] is [None] for every field descriptor, and so is
    [deserialize] of a text that the collapse of white space leaves empty,
    that is of a text of white space only; the descriptor is left as it
    was. *)
Theorem C4_deserialize_null self :
  deser self VNone = (Ok TNone, self) /\
  (forall s, collapse_spaces s = "" -> deser self (VStr s) = (Ok TNone, self)) /\
  (forall s, all_chars is_space s = true -> deser self (VStr s) = (Ok TNone, self)).
Proof.
  assert (H : forall s, collapse_spaces s = "" ->
                        deser self (VStr s) = (Ok TNone, self))
    by (intros s Hs; now rewrite deserialize_str, Hs).
  split; [reflexivity|]. split; [exact H|].
  intros s Hs. now apply H, collapse_spaces_empty.
Qed.

(** C6: for every field descriptor, of every detailed type, [deserialize]
    of a text raises the validation error of the length limit exactly when
    the normalized text has 100 characters or more; on an alpha field a
    text raises a validation error exactly then, a shorter normalized text
    is returned (or [None] when it is empty), and so a normalized text of 99
    characters deserializes to itself. *)
Theorem C6_length_limit self s :
  let v := norm self s in
  let r := fst (deser self (VStr s)) in
  (r = Raise (FieldValidationError (too_long_message self v)) <->
   100 <= String.length v) /\
  (fst (detailed_type self) = Ok "alpha" ->
   ((exists msg, r = Raise (FieldValidationError msg)) <-> 100 <= String.length v) /\
   (String.length v < 100 ->
    r = if String.eqb (collapse_spaces s) "" then Ok TNone else Ok (TStr v)) /\
   (v = s -> String.length s = 99 -> r = Ok (TStr s))).
Proof.
  intros v r.
  assert (Hlong : 100 <= String.length v ->
                  r = Raise (FieldValidationError (too_long_message self v)))
    by apply deserialize_too_long.
  assert (Hshort : fst (detailed_type self) = Ok "alpha" ->
                   String.length v < 100 ->
                   r = if String.eqb (collapse_spaces s) "" then Ok TNone
                       else Ok (TStr v)).
  { intros Ha Hlen. subst r. rewrite deserialize_str.
    destruct (String.eqb (collapse_spaces s) ""); [reflexivity|]. fold v.
    assert (E : (100 <=? String.length v)%nat = false) by (apply Nat.leb_gt; lia).
    rewrite E. now apply deserialize_typed_alpha. }
  split; [split; [|exact Hlong]|].
  - intros Hr. destruct (le_lt_dec 100 (String.length v)) as [H|H]; [exact H|].
    exfalso. subst r. rewrite deserialize_str in Hr.
    destruct (String.eqb (collapse_spaces s) ""); [discriminate Hr|]. fold v in Hr.
    assert (E : (100 <=? String.length v)%nat = false) by (apply Nat.leb_gt; lia).
    rewrite E in Hr. now apply deserialize_typed_not_too_long in Hr.
  - intros Ha. split; [split|split].
    + intros [msg Hr]. destruct (le_lt_dec 100 (String.length v)) as [H|H]; [exact H|].
      rewrite (Hshort Ha H) in Hr.
      destruct (String.eqb (collapse_spaces s) ""); discriminate Hr.
    + intros H. eexists. now apply Hlong.
    + now apply Hshort.
    + intros Hv Hlen. rewrite Hshort by (try rewrite Hv; (easy || lia)).
      destruct (String.eqb (collapse_spaces s) "") eqn:E; [|now rewrite Hv].
      exfalso. subst v. unfold normalize in Hv. rewrite E in Hv.
      subst s. discriminate Hlen.
Qed.

(** The dispatch on a field of the object-list type. *)
Lemma deserialize_typed_object_list self value reference others :
  fst (detailed_type self) = Ok "object-list" ->
  tags self !! "object-list" = Some (reference :: others) ->
  fst (deser_typed self value) = Ok (Link reference value).
Proof.
  unfold deserialize_typed. intros Hd Ht.
  pose proof (proj1 (detailed_type_keeps self)) as Hk.
  destruct (detailed_type self) as [r self']; simpl in *. subst r.
  simpl. now rewrite Hk, Ht.
Qed.

(** C9, amended: on a field of detailed type object-list whose
    ["object-list"] tag has at least one value, [deserialize] of a text
    whose normalized form is not empty and has fewer than 100 characters
    returns the [Link] of the first value of the tag and the normalized
    text; the values after the first play no part. *)
Theorem C9_object_list_first_value self s reference others :
  fst (detailed_type self) = Ok "object-list" ->
  tags self !! "object-list" = Some (reference :: others) ->
  collapse_spaces s <> "" ->
  String.length (norm self s) < 100 ->
  fst (deser self (VStr s)) = Ok (Link reference (VStr (norm self s))).
Proof.
  intros Hd Ht Hne Hlen. rewrite deserialize_str.
  apply String.eqb_neq in Hne. rewrite Hne.
  assert (E : (100 <=? String.length (norm self s))%nat = false)
    by (apply Nat.leb_gt; lia).
  rewrite E. now apply deserialize_typed_object_list with others.
Qed.

(** [unidecode] leaves a text of the ASCII range as it is. *)
Hypothesis unidecode_ascii :
  forall s, all_chars is_ascii s = true -> unidecode s = s.

Lemma normalize_float_text self s :
  all_chars float_char s = true -> norm self s = s.
Proof.
  intros H. destruct (float_text_plain s H) as (Hs & Hu & Ha).
  unfold normalize. rewrite collapse_spaces_no_space by exact Hs.
  destruct (String.eqb s "") eqn:E; [now apply String.eqb_eq in E|].
  rewrite unidecode_ascii by exact Ha.
  destruct (negb _); [now apply lower_no_upper | reflexivity].
Qed.

Lemma float_text_not_sentinel s :
  all_chars float_char s = true -> value_in_sentinels (VStr s) = false.
Proof.
  intros H. unfold value_in_sentinels.
  repeat match goal with
         | |- context [String.eqb s ?t] =>
             let E := fresh in
             destruct (String.eqb s t) eqn:E;
             [apply String.eqb_eq in E; subst s; discriminate H|]
         end.
  reflexivity.
Qed.

Lemma deserialize_float_text self s :
  all_chars float_char s = true -> s <> "" -> String.length s < 100 ->
  deser self (VStr s) = deser_typed self (VStr s).
Proof.
  intros H Hne Hlen. rewrite deserialize_str, normalize_float_text by exact H.
  rewrite collapse_spaces_no_space by now apply float_text_plain.
  apply String.eqb_neq in Hne. rewrite Hne.
  assert (E : (100 <=? String.length s)%nat = false) by (apply Nat.leb_gt; lia).
  now rewrite E.
Qed.

Lemma str_of_Z_not_empty n : str_of_Z n <> "".
Proof.
  destruct (str_of_Z_cases n) as [(p & _ & ->) | [(p & _ & ->) | [_ ->]]];
    try discriminate.
  destruct (uint_first_digit _ (to_uint_not_nil p)) as (c & r & -> & _).
  discriminate.
Qed.

(** A numeral text that passes the guards goes to [float] on a real
    field. *)
Lemma deserialize_real_text self s x :
  fst (detailed_type self) = Ok "real" ->
  all_chars float_char s = true -> s <> "" -> String.length s < 100 ->
  float_of_str s = Some x ->
  fst (deser self (VStr s)) = Ok (TFloat x).
Proof.
  intros Hd Hs Hne Hlen Hx.
  rewrite deserialize_float_text by assumption.
  unfold deserialize_typed.
  rewrite float_text_not_sentinel by exact Hs.
  destruct (detailed_type self) as [r self']; simpl in Hd. subst r.
  cbn. now rewrite Hx.
Qed.

(** Python's rendering [str(x)] of a float [x]. *)
Variable float_str : float -> string.

(** C5, amended: on an integer field, [deserialize(str(n))] is [n] for every
    integer [n], negative or not, whose decimal rendering has fewer than 100
    characters, and is the validation error of the length limit for the
    others; on a real field, [deserialize(str(x))] is [x] for every float
    [x], its rendering being, as Python makes it, a text of digits, sign,
    point, exponent mark, [inf] or [nan] of fewer than 100 characters that
    [float] reads back as [x]; on both kinds the three sentinel literals
    come back unchanged, as text. *)
Theorem C5_numeric_round_trip self :
  (fst (detailed_type self) = Ok "integer" ->
   forall n,
     (String.length (str_of_Z n) < 100 ->
      fst (deser self (VStr (str_of_Z n))) = Ok (TInt n)) /\
     (100 <= String.length (str_of_Z n) ->
      fst (deser self (VStr (str_of_Z n))) =
      Raise (FieldValidationError (too_long_message self (str_of_Z n))))) /\
  (fst (detailed_type self) = Ok "real" ->
   forall x,
     all_chars float_char (float_str x) = true -> float_str x <> "" ->
     String.length (float_str x) < 100 ->
     float_of_str (float_str x) = Some x ->
     fst (deser self (VStr (float_str x))) = Ok (TFloat x)) /\
  (fst (detailed_type self) = Ok "integer" \/ fst (detailed_type self) = Ok "real" ->
   forall s,
     s = "autocalculate" \/ s = "autosize" \/ s = "useweatherfile" ->
     fst (deser self (VStr s)) = Ok (TStr s)).
Proof.
  split; [|split].
  - intros Hd n. split.
    + intros Hlen.
      rewrite deserialize_float_text
        by auto using str_of_Z_float_text, str_of_Z_not_empty.
      unfold deserialize_typed.
      rewrite float_text_not_sentinel by apply str_of_Z_float_text.
      destruct (detailed_type self) as [r self']; simpl in Hd. subst r.
      cbn -[int_of_str str_of_Z]. now rewrite int_of_str_of_Z.
    + intros Hlen.
      pose proof (deserialize_too_long self (str_of_Z n)) as H.
      rewrite normalize_float_text in H by apply str_of_Z_float_text.
      now apply H.
  - intros Hd x Hs Hne Hlen Hx. now apply deserialize_real_text.
  - intros Hd s Hs.
    assert (Hplain : all_chars (fun c => negb (is_space c)) s = true /\
                     all_chars (fun c => negb (is_upper c)) s = true /\
                     all_chars is_ascii s = true /\
                     String.eqb s "" = false /\
                     (100 <=? String.length s)%nat = false /\
                     value_in_sentinels (VStr s) = true)
      by (destruct Hs as [-> | [-> | ->]]; repeat split).
    destruct Hplain as (H1 & H2 & H3 & H4 & H5 & H6).
    rewrite deserialize_str. unfold normalize.
    rewrite collapse_spaces_no_space, H4, unidecode_ascii by assumption.
    replace (if negb (has_key "retaincase" (tags self)) then lower s else s)
      with s by (destruct (negb _); [now rewrite lower_no_upper | reflexivity]).
    rewrite H5. unfold deserialize_typed. rewrite H6.
    destruct (detailed_type self) as [r self']; simpl in Hd.
    destruct Hd as [-> | ->]; reflexivity.
Qed.

End DeserializeFacts.

Lemma C4_deserialize_null_witness :
  deserialize no_float no_float_of_int unidecode_id fd_alpha
    (VStr ("  " +:+ nl)) = (Ok TNone, fd_alpha).
Proof.
  apply (proj1 (proj2 (C4_deserialize_null no_float no_float_of_int unidecode_id
                         fd_alpha))).
  reflexivity.
Defined.

Lemma C6_length_limit_witness :
  fst (deserialize no_float no_float_of_int unidecode_id fd_alpha
         (VStr (repeat_char "a" 99))) = Ok (TStr (repeat_char "a" 99)) /\
  fst (deserialize no_float no_float_of_int unidecode_id fd_integer
         (VStr (repeat_char "7" 100))) =
  Raise (FieldValidationError (too_long_message fd_integer (repeat_char "7" 100))).
Proof.
  split.
  - apply (proj2 (proj2 (proj2 (C6_length_limit no_float no_float_of_int unidecode_id
                                  fd_alpha (repeat_char "a" 99)) eq_refl)));
      reflexivity.
  - apply (proj2 (proj1 (C6_length_limit no_float no_float_of_int unidecode_id
                           fd_integer (repeat_char "7" 100)))).
    apply Nat.leb_le. reflexivity.
Defined.

(** C5, the claim as stated fails: the rendering of the integer [10^99] has
    100 characters, and an integer field refuses it. *)
Lemma C5_large_integer_counterexample :
  ~ (forall self n,
       fst (detailed_type self) = Ok "integer" ->
       fst (deserialize no_float no_float_of_int unidecode_id self
              (VStr (str_of_Z n))) = Ok (TInt n)).
Proof.
  intros H. specialize (H fd_integer (10 ^ 99)%Z eq_refl).
  vm_compute in H. discriminate H.
Qed.

Lemma C5_numeric_round_trip_witness :
  fst (deserialize no_float no_float_of_int unidecode_id fd_integer
         (VStr (str_of_Z (-1234567890123456789012345678901234567890)))) =
  Ok (TInt (-1234567890123456789012345678901234567890)) /\
  fst (deserialize whole_float_of_str no_float_of_int unidecode_id fd_real
         (VStr (whole_float_str (-15)))) = Ok (TFloat (-15)%Z) /\
  fst (deserialize no_float no_float_of_int unidecode_id fd_real
         (VStr "autosize")) = Ok (TStr "autosize").
Proof.
  split; [|split].
  - apply (proj1 (C5_numeric_round_trip no_float no_float_of_int unidecode_id
                    (fun s _ => eq_refl) whole_float_str fd_integer) eq_refl).
    apply Nat.ltb_lt. reflexivity.
  - apply (proj1 (proj2 (C5_numeric_round_trip whole_float_of_str no_float_of_int
                           unidecode_id (fun s _ => eq_refl) whole_float_str
                           fd_real)) eq_refl (-15)%Z);
      first [reflexivity | discriminate | apply Nat.ltb_lt; reflexivity].
  - apply (proj2 (proj2 (C5_numeric_round_trip no_float no_float_of_int unidecode_id
                           (fun s _ => eq_refl) whole_float_str fd_real))); auto.
Defined.

(** C9, the claim as stated fails: a text of 100 characters is not null,
    and a field of the object-list type refuses it. *)
Lemma C9_long_text_counterexample :
  ~ (forall self s reference others,
       fst (detailed_type self) = Ok "object-list" ->
       tags self !! "object-list" = Some (reference :: others) ->
       s <> "" ->
       exists v,
         fst (deserialize no_float no_float_of_int unidecode_id self (VStr s)) =
         Ok (Link reference (VStr v))).
Proof.
  intros H.
  destruct (H fd_object_list (repeat_char "a" 100) "ZoneNames" ["SpaceNames"])
    as [v Hv]; [reflexivity | reflexivity | discriminate |].
  vm_compute in Hv. discriminate Hv.
Qed.

Lemma C9_object_list_first_value_witness :
  fst (deserialize no_float no_float_of_int unidecode_id fd_object_list
         (VStr "  Living   ROOM ")) = Ok (Link "ZoneNames" (VStr "living room")).
Proof.
  apply (C9_object_list_first_value no_float no_float_of_int unidecode_id
           fd_object_list "  Living   ROOM " "ZoneNames" ["SpaceNames"]).
  - reflexivity.
  - reflexivity.
  - discriminate.
  - apply Nat.ltb_lt. reflexivity.
Defined.

(** ** C7: the link tables *)

Lemma add_link_in lk (d : link_table) ref_name :
  in_bucket lk (lower ref_name) (add_link lk d ref_name).
Proof.
  unfold in_bucket, add_link. eexists. split; [apply lookup_insert_eq|].
  apply in_or_app. right. now left.
Qed.

Lemma add_link_mono lk lk' k (d : link_table) ref_name :
  in_bucket lk' k d -> in_bucket lk' k (add_link lk d ref_name).
Proof.
  intros (l & Hl & Hin). unfold in_bucket, add_link.
  destruct (decide (lower ref_name = k)) as [->|Hne].
  - rewrite lookup_insert_eq.
    assert (E : bool_decide (is_Some (d !! k)) = true)
      by (apply bool_decide_eq_true; eauto).
    rewrite E, Hl. eexists. split; [reflexivity|].
    apply in_or_app. now left.
  - rewrite lookup_insert_ne by exact Hne.
    exists l. split; [|exact Hin].
    destruct (bool_decide _); [exact Hl|]. now rewrite lookup_insert_ne.
Qed.

Lemma fold_add_link_mono lk lk' k names : forall d : link_table,
  in_bucket lk' k d -> in_bucket lk' k (fold_left (add_link lk) names d).
Proof.
  induction names as [|n names IH]; intros d H; simpl; [exact H|].
  now apply IH, add_link_mono.
Qed.

Lemma fold_add_link_in lk V names : forall d : link_table,
  In V names -> in_bucket lk (lower V) (fold_left (add_link lk) names d).
Proof.
  induction names as [|n names IH]; intros d H; simpl; [easy|].
  destruct H as [->|H]; [|now apply IH].
  apply fold_add_link_mono, add_link_in.
Qed.

Lemma link_field_tables rd self i fieldd :
  _table_descriptors (link_field rd self i fieldd) = _table_descriptors self.
Proof.
  unfold link_field.
  destruct (has_tag fieldd "reference"), (has_tag fieldd "object-list"); reflexivity.
Qed.

Lemma link_field_mono rd self i fieldd lk k :
  (in_bucket lk k (_pointed_rd_linkds_d self) ->
   in_bucket lk k (_pointed_rd_linkds_d (link_field rd self i fieldd))) /\
  (in_bucket lk k (_pointing_rd_linkds_d self) ->
   in_bucket lk k (_pointing_rd_linkds_d (link_field rd self i fieldd))).
Proof.
  unfold link_field.
  destruct (has_tag fieldd "reference"), (has_tag fieldd "object-list"); simpl;
    split; auto using fold_add_link_mono.
Qed.

Lemma link_field_adds rd self i fieldd :
  (has_tag fieldd "reference" = true ->
   forall W, In W (get_tag fieldd "reference") ->
   in_bucket (rd, i) (lower W) (_pointed_rd_linkds_d (link_field rd self i fieldd))) /\
  (has_tag fieldd "object-list" = true ->
   forall V, In V (get_tag fieldd "object-list") ->
   in_bucket (rd, i) (lower V) (_pointing_rd_linkds_d (link_field rd self i fieldd))).
Proof.
  unfold link_field. split; intros -> X HX.
  - destruct (has_tag fieldd "object-list"); simpl; now apply fold_add_link_in.
  - simpl. now apply fold_add_link_in.
Qed.

Lemma link_fields_tables rd l : forall i self,
  _table_descriptors (link_fields rd i l self) = _table_descriptors self.
Proof.
  induction l as [|f l IH]; intros i self; simpl; [easy|].
  now rewrite IH, link_field_tables.
Qed.

Lemma link_fields_mono rd l lk k : forall i self,
  (in_bucket lk k (_pointed_rd_linkds_d self) ->
   in_bucket lk k (_pointed_rd_linkds_d (link_fields rd i l self))) /\
  (in_bucket lk k (_pointing_rd_linkds_d self) ->
   in_bucket lk k (_pointing_rd_linkds_d (link_fields rd i l self))).
Proof.
  induction l as [|f l IH]; intros i self; simpl; [easy|].
  split; intros H; apply IH; now apply link_field_mono.
Qed.

Lemma link_fields_adds rd l : forall i self j fieldd,
  l !! j = Some fieldd ->
  (has_tag fieldd "reference" = true ->
   forall W, In W (get_tag fieldd "reference") ->
   in_bucket (rd, i + j) (lower W)
     (_pointed_rd_linkds_d (link_fields rd i l self))) /\
  (has_tag fieldd "object-list" = true ->
   forall V, In V (get_tag fieldd "object-list") ->
   in_bucket (rd, i + j) (lower V)
     (_pointing_rd_linkds_d (link_fields rd i l self))).
Proof.
  induction l as [|f l IH]; intros i self j fieldd Hj; [easy|].
  destruct j as [|j]; simpl in Hj |- *.
  - injection Hj as ->. rewrite Nat.add_0_r.
    split; intros Ht X HX; apply link_fields_mono;
      now apply (link_field_adds rd self i fieldd).
  - replace (i + S j) with (S i + j) by lia. now apply IH.
Qed.

Lemma link_all_tables rds : forall self,
  _table_descriptors (link_all rds self) = _table_descriptors self.
Proof.
  induction rds as [|rd rds IH]; intros self; simpl; [easy|].
  unfold link_all in *. simpl. now rewrite IH, link_fields_tables.
Qed.

Lemma link_all_mono rds lk k : forall self,
  (in_bucket lk k (_pointed_rd_linkds_d self) ->
   in_bucket lk k (_pointed_rd_linkds_d (link_all rds self))) /\
  (in_bucket lk k (_pointing_rd_linkds_d self) ->
   in_bucket lk k (_pointing_rd_linkds_d (link_all rds self))).
Proof.
  induction rds as [|rd rds IH]; intros self; [easy|].
  unfold link_all in *. simpl.
  split; intros H; apply IH; now apply link_fields_mono.
Qed.

Lemma link_all_adds rds : forall self rd i fieldd,
  In rd rds ->
  field_descriptors rd !! i = Some fieldd ->
  (has_tag fieldd "reference" = true ->
   forall W, In W (get_tag fieldd "reference") ->
   in_bucket (rd, i) (lower W) (_pointed_rd_linkds_d (link_all rds self))) /\
  (has_tag fieldd "object-list" = true ->
   forall V, In V (get_tag fieldd "object-list") ->
   in_bucket (rd, i) (lower V) (_pointing_rd_linkds_d (link_all rds self))).
Proof.
  induction rds as [|rd0 rds IH]; intros self rd i fieldd Hin Hi; [easy|].
  destruct Hin as [->|Hin].
  - change (link_all (rd :: rds) self)
      with (link_all rds (link_fields rd 0 (field_descriptors rd) self)).
    split; intros Ht X HX; apply link_all_mono;
      now apply (link_fields_adds rd _ 0 self i fieldd Hi).
  - now apply IH.
Qed.

Lemma pointing_links_bucket self lk V :
  in_bucket lk (lower V) (_pointing_rd_linkds_d self) ->
  In lk (fst (pointing_links self V)).
Proof. intros (l & Hl & Hin). unfold pointing_links. now rewrite Hl. Qed.

Lemma pointed_links_bucket self lk W :
  in_bucket lk (lower W) (_pointed_rd_linkds_d self) ->
  In lk (fst (pointed_links self W)).
Proof. intros (l & Hl & Hin). unfold pointed_links. now rewrite Hl. Qed.

(** C7: in a catalogue built from any lines, in whatever order they declare
    the records, every field of every record descriptor that has an
    ["object-list"] tag with a value [V] is, as the pair of its record
    descriptor and its index, among [pointing_links(V)], in the bucket of
    the lower-cased [V]; and every field that has a ["reference"] tag with a
    value [W] is among [pointed_links(W)] in the same way. *)
Theorem C7_link_tables_complete table_ref_of post_init lines idd :
  Idd_init table_ref_of post_init lines = Ok idd ->
  forall rd i fieldd,
    In rd (OD.values (_table_descriptors idd)) ->
    field_descriptors rd !! i = Some fieldd ->
    (has_tag fieldd "object-list" = true ->
     forall V, In V (get_tag fieldd "object-list") ->
       In (rd, i) (fst (pointing_links idd V)) /\
       in_bucket (rd, i) (lower V) (_pointing_rd_linkds_d idd)) /\
    (has_tag fieldd "reference" = true ->
     forall W, In W (get_tag fieldd "reference") ->
       In (rd, i) (fst (pointed_links idd W)) /\
       in_bucket (rd, i) (lower W) (_pointed_rd_linkds_d idd)).
Proof.
  unfold Idd_init. intros Hinit rd i fieldd Hrd Hi.
  destruct (_parse table_ref_of lines _) as [parsed|e]; [|discriminate Hinit].
  simpl in Hinit. injection Hinit as <-.
  unfold _link in *. fold (link_all (OD.values (_table_descriptors (_post_init post_init parsed)))
                             (_post_init post_init parsed)) in *.
  rewrite link_all_tables in Hrd.
  destruct (link_all_adds _ (_post_init post_init parsed) rd i fieldd Hrd Hi) as [Hr Ho].
  split; intros Ht X HX.
  - split; [apply pointing_links_bucket|]; now apply Ho.
  - split; [apply pointed_links_bucket|]; now apply Hr.
Qed.

Lemma C7_link_tables_complete_witness :
  In (example_wall, 1) (fst (pointing_links example_idd "ZoneNames")) /\
  In (example_zone, 0) (fst (pointed_links example_idd "ZONENAMES")).
Proof.
  split.
  - refine (proj1 (proj1 (C7_link_tables_complete table_name_to_ref (fun rd => rd)
                            example_lines example_idd _ example_wall 1
                            (mkFieldDescriptor "Wall" 1 "A" (Some "Zone Name")
                               (Some "zone_name")
                               (tags_append "object-list" (Some "ZoneNames")
                                  (tags_append "type" (Some "object-list") ∅))
                               None) _ _) _ "ZoneNames" _)).
    + vm_compute. reflexivity.
    + vm_compute. left. reflexivity.
    + vm_compute. reflexivity.
    + vm_compute. reflexivity.
    + vm_compute. left. reflexivity.
  - refine (proj1 (proj2 (C7_link_tables_complete table_name_to_ref (fun rd => rd)
                            example_lines example_idd _ example_zone 0
                            (mkFieldDescriptor "Zone" 0 "A" (Some "Name")
                               (Some "name")
                               (tags_append "reference" (Some "ZoneNames") ∅)
                               None) _ _) _ "ZoneNames" _)).
    + vm_compute. reflexivity.
    + vm_compute. right. left. reflexivity.
    + vm_compute. reflexivity.
    + vm_compute. reflexivity.
    + vm_compute. left. reflexivity.
Defined.

(** ** C8: the lookups of links *)

(** C8: [pointed_links] and [pointing_links] return the same links for two
    names that differ only by case, and the empty list, not an error, for a
    name whose lower-casing is not a key of the table. *)
Theorem C8_link_lookups_case_insensitive self :
  (forall n1 n2, case_variant n1 n2 ->
     fst (pointed_links self n1) = fst (pointed_links self n2) /\
     fst (pointing_links self n1) = fst (pointing_links self n2)) /\
  (forall n, _pointed_rd_linkds_d self !! lower n = None ->
     fst (pointed_links self n) = []) /\
  (forall n, _pointing_rd_linkds_d self !! lower n = None ->
     fst (pointing_links self n) = []).
Proof.
  split; [|split].
  - intros n1 n2 H%case_variant_lower. unfold pointed_links, pointing_links.
    rewrite H. split.
    + now destruct (_pointed_rd_linkds_d self !! lower n2).
    + now destruct (_pointing_rd_linkds_d self !! lower n2).
  - intros n H. unfold pointed_links. now rewrite H.
  - intros n H. unfold pointing_links. now rewrite H.
Qed.

Lemma C8_link_lookups_case_insensitive_witness :
  fst (pointed_links example_idd "ZONENAMES") =
  fst (pointed_links example_idd "zonenames") /\
  fst (pointing_links example_idd "Surfaces") = [].
Proof.
  split.
  - exact (proj1 (proj1 (C8_link_lookups_case_insensitive example_idd)
                           "ZONENAMES" "zonenames"
                           (case_variant_of_lower "ZONENAMES"))).
  - refine (proj2 (proj2 (C8_link_lookups_case_insensitive example_idd))
              "Surfaces" _).
    vm_compute. reflexivity.
Defined.

(** ** C1: duplicate record headers *)

(** C1, on the code: a schema that declares the record [Zone] twice is
    accepted, whether [table_ref] is [table_name_to_ref] of the name or the
    name itself; the second descriptor silently takes the place of the
    first, whose field is lost.  The check fires only when the name is
    written in lower case, as for [zone] declared twice. *)
Theorem C1_duplicate_header_overwrites :
  (exists idd,
     Idd_init table_name_to_ref (fun rd => rd) duplicate_lines = Ok idd /\
     summary idd = [("zone", "Zone", 0)]) /\
  (exists idd,
     Idd_init (fun table_name => table_name) (fun rd => rd) duplicate_lines = Ok idd /\
     summary idd = [("zone", "Zone", 0)]) /\
  Idd_init table_name_to_ref (fun rd => rd) duplicate_lower_lines =
    Raise (AssertionError "Record descriptor already registered.").
Proof.
  split; [|split].
  - eexists. split; vm_compute; reflexivity.
  - eexists. split; vm_compute; reflexivity.
  - vm_compute. reflexivity.
Qed.

(** * Further properties of the code *)

(** ** [append_tag] and the tag store *)

Lemma tags_append_lookup r0 v (t : tag_store) r :
  tags_append r0 v t !! r =
  if String.eqb r0 r then
    Some (default [] (t !! r) ++ match v with Some x => [x] | None => [] end)%list
  else t !! r.
Proof.
  unfold tags_append. destruct (String.eqb r0 r) eqn:E.
  - apply String.eqb_eq in E as ->.
    destruct (has_key r t) eqn:Hk.
    + apply has_key_true in Hk as [l Hl]. rewrite Hl. simpl.
      destruct v; [now rewrite lookup_insert_eq | now rewrite Hl, app_nil_r].
    + apply has_key_false in Hk. rewrite Hk. simpl.
      destruct v; rewrite ?lookup_insert_eq; reflexivity.
  - apply String.eqb_neq in E.
    destruct (has_key r0 t), v; rewrite ?lookup_insert_ne by exact E; reflexivity.
Qed.

Lemma append_tags_cons fd c calls :
  append_tags fd (c :: calls) = append_tags (append_tag fd (fst c) (snd c)) calls.
Proof. reflexivity. Qed.

(** X1: after any sequence of [append_tag] calls a tag is in the store exactly
    when it was there before or a call names it, and its values are the
    values it had followed by the values the calls give it, in the order of
    the calls: nothing is removed, reordered or written under another
    name. *)
Theorem append_tags_lookup fd calls r :
  tags (append_tags fd calls) !! r =
  if has_key r (tags fd) || named_in r calls then
    Some (default [] (tags fd !! r) ++ values_given r calls)%list
  else None.
Proof.
  revert fd. induction calls as [|c calls IH]; intros fd.
  - simpl. rewrite orb_false_r, app_nil_r.
    destruct (has_key r (tags fd)) eqn:E.
    + apply has_key_true in E as [l ->]. reflexivity.
    + now apply has_key_false in E.
  - rewrite append_tags_cons, IH. unfold append_tag at 1 2. unfold has_key.
    simpl tags. rewrite tags_append_lookup. simpl.
    destruct (String.eqb (fst c) r) eqn:E; simpl.
    + rewrite orb_true_r. now rewrite <- app_assoc.
    + reflexivity.
Qed.

(** ** [detailed_type]: the cache and the tags it reads *)

(** X2: once [detailed_type] has returned a value, every later read returns
    that value and changes nothing, whatever tags are appended in
    between. *)
Theorem detailed_type_cached fd t fd' :
  detailed_type fd = (Ok t, fd') ->
  forall calls,
    detailed_type (append_tags fd' calls) = (Ok t, append_tags fd' calls).
Proof.
  intros H calls.
  assert (Hc : _detailed_type fd' = Some t).
  { unfold detailed_type in H. destruct (_detailed_type fd) eqn:E.
    - injection H as -> ->. exact E.
    - destruct (resolve_detailed_type fd); [|discriminate H].
      now injection H as -> <-. }
  unfold detailed_type. now rewrite (proj2 (append_tags_fields _ _)), Hc.
Qed.

Lemma detailed_type_cached_witness :
  detailed_type (append_tags (set_detailed_type fd_alpha "alpha")
                   [("reference", Some "ZoneNames")]) =
  (Ok "alpha", append_tags (set_detailed_type fd_alpha "alpha")
                 [("reference", Some "ZoneNames")]).
Proof.
  apply (detailed_type_cached fd_alpha "alpha" (set_detailed_type fd_alpha "alpha")).
  reflexivity.
Defined.

Lemma has_key_append_other r0 v (t : tag_store) r :
  r0 <> r -> has_key r (tags_append r0 v t) = has_key r t.
Proof.
  intros Hne. unfold has_key. rewrite tags_append_lookup.
  apply String.eqb_neq in Hne. now rewrite Hne.
Qed.

(** X3: a tag whose name is none of the six that the cascade reads does not
    change the detailed type of a field that has not been read yet. *)
Theorem detailed_type_ignores_other_tags fd r v :
  _detailed_type fd = None ->
  ~ In r cascade_tags ->
  fst (detailed_type (append_tag fd r v)) = fst (detailed_type fd).
Proof.
  intros Hc Hr.
  assert (Hne : forall n, In n cascade_tags -> r <> n) by (intros n Hn ->; auto).
  assert (E : resolve_detailed_type (append_tag fd r v) = resolve_detailed_type fd).
  { unfold resolve_detailed_type, append_tag. simpl.
    rewrite !has_key_append_other by (apply Hne; simpl; tauto).
    rewrite tags_append_lookup.
    assert (Ht : String.eqb r "type" = false)
      by (apply String.eqb_neq, Hne; simpl; tauto).
    now rewrite Ht. }
  unfold detailed_type. simpl. rewrite Hc, E.
  now destruct (resolve_detailed_type fd).
Qed.

Lemma detailed_type_ignores_other_tags_witness :
  fst (detailed_type (append_tag fd_integer "minimum" (Some "0"))) =
  fst (detailed_type fd_integer).
Proof.
  apply detailed_type_ignores_other_tags; [reflexivity|].
  simpl. intros H. repeat (destruct H as [H|H]; [discriminate H|]). exact H.
Defined.

(** ** [deserialize]: the cache, the kinds, the errors *)

Lemma detailed_type_after self :
  detailed_type (snd (detailed_type self)) =
    (fst (detailed_type self), snd (detailed_type self)) /\
  tags (snd (detailed_type self)) = tags self /\
  basic_type (snd (detailed_type self)) = basic_type self /\
  name (snd (detailed_type self)) = name self /\
  ref (snd (detailed_type self)) = ref self /\
  index (snd (detailed_type self)) = index self /\
  table_descriptor (snd (detailed_type self)) = table_descriptor self.
Proof.
  unfold detailed_type. destruct (_detailed_type self) eqn:E; simpl.
  - rewrite E. auto 10.
  - destruct (resolve_detailed_type self) eqn:R; simpl; rewrite ?E, ?R; auto 10.
Qed.

Section DeserializeMore.

Context {float : Type}.
Variable float_of_str : string -> option float.
Variable float_of_int : Z -> option float.
Variable unidecode : string -> string.

(* The functions of the section, at its [float] and [unidecode]. *)
Local Abbreviation deser := (deserialize float_of_str float_of_int unidecode).
Local Abbreviation deser_typed := (deserialize_typed float_of_str float_of_int).
Local Abbreviation norm := (normalize unidecode).

Lemma deserialize_typed_snd self value :
  snd (deser_typed self value) = snd (detailed_type self).
Proof.
  unfold deserialize_typed. now destruct (detailed_type self) as [[t|e] self'].
Qed.

Lemma deserialize_typed_after self value :
  deser_typed (snd (detailed_type self)) value = deser_typed self value.
Proof.
  unfold deserialize_typed. rewrite (proj1 (detailed_type_after self)).
  now destruct (detailed_type self) as [[t|e] self'].
Qed.

Lemma deserialize_snd self value :
  snd (deser self value) = self \/ snd (deser self value) = snd (detailed_type self).
Proof.
  destruct value as [|s|z]; [now left | | right; apply deserialize_typed_snd].
  rewrite deserialize_str.
  destruct (String.eqb (collapse_spaces s) ""); [now left|].
  destruct (100 <=? _)%nat; [now left|]. right. apply deserialize_typed_snd.
Qed.

Lemma deserialize_after_read self value :
  fst (deser (snd (detailed_type self)) value) = fst (deser self value).
Proof.
  destruct (detailed_type_after self) as (_ & Ht & _ & _ & Hr & Hi & Htd).
  destruct value as [|s|z]; [reflexivity | | simpl; now rewrite deserialize_typed_after].
  rewrite !deserialize_str.
  assert (Hn : norm (snd (detailed_type self)) s = norm self s)
    by (unfold normalize; now rewrite Ht).
  assert (Hm : forall v, too_long_message (snd (detailed_type self)) v =
                         too_long_message self v)
    by (intros v; unfold too_long_message, get_error_location_message;
        now rewrite Hr, Hi, Htd).
  rewrite Hn, Hm, deserialize_typed_after.
  destruct (String.eqb (collapse_spaces s) ""); [reflexivity|].
  now destruct (100 <=? _)%nat.
Qed.

(** X4: [deserialize] changes nothing of a descriptor but the cache of its
    detailed type, and what a call returns does not depend on the calls
    made before it. *)
Theorem deserialize_repeatable self value value' :
  let self' := snd (deserialize float_of_str float_of_int unidecode self value) in
  fst (deserialize float_of_str float_of_int unidecode self' value') =
  fst (deserialize float_of_str float_of_int unidecode self value') /\
  tags self' = tags self /\ basic_type self' = basic_type self /\
  name self' = name self /\ ref self' = ref self /\ index self' = index self /\
  table_descriptor self' = table_descriptor self.
Proof.
  intros self'. subst self'.
  destruct (deserialize_snd self value) as [-> | ->]; [auto 10|].
  split; [apply deserialize_after_read|]. apply detailed_type_after.
Qed.

(** The text of a [str] input that passes the two guards, or the guard
    that stops it. *)
Lemma deserialize_short_text self s :
  collapse_spaces s <> "" -> String.length (norm self s) < 100 ->
  deser self (VStr s) = deser_typed self (VStr (norm self s)).
Proof.
  intros Hne Hlen. rewrite deserialize_str.
  apply String.eqb_neq in Hne. rewrite Hne.
  assert (E : (100 <=? String.length (norm self s))%nat = false)
    by (apply Nat.leb_gt; lia).
  now rewrite E.
Qed.

Lemma deserialize_typed_at self dt :
  fst (detailed_type self) = Ok dt ->
  exists self',
    detailed_type self = (Ok dt, self') /\ tags self' = tags self /\
    forall v, get_error_location_message self' v = get_error_location_message self v.
Proof.
  intros H. pose proof (detailed_type_keeps self) as [Ht Hm].
  destruct (detailed_type self) as [r self']. simpl in *. subst r. eauto.
Qed.

(** X5: on a field of detailed type reference, [deserialize] wraps the value in
    a [RecordHook] with all the values of the ["reference"] tag (none when
    the field only has a ["reference-class-name"] tag); a text is
    normalized first, a value that is not a text is taken as it is. *)
Theorem deserialize_reference self :
  fst (detailed_type self) = Ok "reference" ->
  (forall s, collapse_spaces s <> "" -> String.length (norm self s) < 100 ->
     fst (deser self (VStr s)) =
     Ok (RecordHook (default [] (tags self !! "reference")) (VStr (norm self s)))) /\
  (forall z,
     fst (deser self (VInt z)) =
     Ok (RecordHook (default [] (tags self !! "reference")) (VInt z))).
Proof.
  intros Hd.
  assert (H : forall value, fst (deser_typed self value) =
              Ok (RecordHook (default [] (tags self !! "reference")) value)).
  { intros value. unfold deserialize_typed.
    destruct (deserialize_typed_at self _ Hd) as (self' & -> & Ht & _).
    simpl. now rewrite Ht. }
  split.
  - intros s Hne Hlen. now rewrite deserialize_short_text.
  - intros z. apply H.
Qed.

(** X6: on a field of detailed type alpha, choice, node or external-list,
    [deserialize] returns the normalized text of a text, and refuses a value
    that is not a text with a validation error that names the table, the
    index, the ref and the value. *)
Theorem deserialize_text_kinds self dt :
  fst (detailed_type self) = Ok dt -> In dt text_types ->
  (forall s, collapse_spaces s <> "" -> String.length (norm self s) < 100 ->
     fst (deser self (VStr s)) = Ok (TStr (norm self s))) /\
  (forall z,
     fst (deser self (VInt z)) =
     Raise (FieldValidationError
              ("Value must be a string. Table: " +:+ table_descriptor self +:+
               ", index: " +:+ str_of_Z (Z.of_nat (index self)) +:+
               ", ref: " +:+ default "None" (ref self) +:+
               ", value: " +:+ str_of_Z z +:+ "."))).
Proof.
  intros Hd Hin.
  destruct (deserialize_typed_at self _ Hd) as (self' & E & Ht & Hm).
  split.
  - intros s Hne Hlen. rewrite deserialize_short_text by assumption.
    unfold deserialize_typed. rewrite E.
    simpl in Hin. destruct Hin as [<-|[<-|[<-|[<-|[]]]]]; reflexivity.
  - intros z. simpl. unfold deserialize_typed. rewrite E.
    simpl in Hin.
    destruct Hin as [<-|[<-|[<-|[<-|[]]]]]; cbn -[get_error_location_message];
      rewrite Hm; reflexivity.
Qed.

Lemma eqb_not_in (dt : string) l x :
  ~ In dt l -> In x l -> String.eqb dt x = false.
Proof. intros Hn Hx. apply String.eqb_neq. now intros ->. Qed.

(** X7: a detailed type outside the eight that [deserialize] knows, as a [\type]
    tag can give, makes [deserialize] fail with the [RuntimeError] of its
    last line on every value that passes the guards. *)
Theorem deserialize_unknown_type self dt :
  fst (detailed_type self) = Ok dt -> ~ In dt known_types ->
  (forall s, collapse_spaces s <> "" -> String.length (norm self s) < 100 ->
     fst (deser self (VStr s)) = Raise (RuntimeError "should not be here")) /\
  (forall z, fst (deser self (VInt z)) = Raise (RuntimeError "should not be here")).
Proof.
  intros Hd Hn.
  assert (H : forall value, fst (deser_typed self value) =
                            Raise (RuntimeError "should not be here")).
  { intros value. unfold deserialize_typed.
    destruct (deserialize_typed_at self _ Hd) as (self' & -> & _).
    cbn -[value_in_sentinels int_of_pyval float_of_pyval String.eqb].
    rewrite !(eqb_not_in dt known_types) by (assumption || (simpl; tauto)).
    reflexivity. }
  split.
  - intros s Hne Hlen. now rewrite deserialize_short_text.
  - intros z. apply H.
Qed.

End DeserializeMore.

Lemma deserialize_reference_witness :
  fst (deserialize no_float no_float_of_int unidecode_id fd_reference
         (VStr " Living  Room ")) =
  Ok (RecordHook ["ZoneNames"; "SpaceNames"] (VStr "living room")).
Proof.
  refine (proj1 (deserialize_reference no_float no_float_of_int unidecode_id
                   fd_reference _) " Living  Room " _ _).
  - reflexivity.
  - discriminate.
  - apply Nat.ltb_lt. reflexivity.
Defined.

Lemma deserialize_text_kinds_witness :
  fst (deserialize no_float no_float_of_int unidecode_id fd_alpha (VInt 12)) =
  Raise (FieldValidationError
           "Value must be a string. Table: Zone, index: 0, ref: name, value: 12.") /\
  fst (deserialize no_float no_float_of_int unidecode_id fd_alpha
         (VStr " Living  Room ")) = Ok (TStr "living room").
Proof.
  split.
  - refine (proj2 (deserialize_text_kinds no_float no_float_of_int unidecode_id
                     fd_alpha "alpha" _ _) 12%Z).
    + reflexivity.
    + left. reflexivity.
  - refine (proj1 (deserialize_text_kinds no_float no_float_of_int unidecode_id
                     fd_alpha "alpha" _ _) " Living  Room " _ _).
    + reflexivity.
    + left. reflexivity.
    + discriminate.
    + apply Nat.ltb_lt. reflexivity.
Defined.

Lemma deserialize_unknown_type_witness :
  fst (deserialize no_float no_float_of_int unidecode_id fd_unknown
         (VStr "Rectangle")) = Raise (RuntimeError "should not be here").
Proof.
  refine (proj1 (deserialize_unknown_type no_float no_float_of_int unidecode_id
                   fd_unknown "polygon" _ _) "Rectangle" _ _).
  - reflexivity.
  - simpl. intros H. repeat (destruct H as [H|H]; [discriminate H|]). exact H.
  - discriminate.
  - apply Nat.ltb_lt. reflexivity.
Defined.

(** ** Normalization of text *)

Lemma is_space_lower_char c : is_space (lower_char c) = is_space c.
Proof. by_cases_on_char c. Qed.

Lemma is_ascii_lower_char c : is_ascii (lower_char c) = is_ascii c.
Proof. by_cases_on_char c. Qed.

Lemma lower_length s : String.length (lower s) = String.length s.
Proof. induction s; simpl; congruence. Qed.

Lemma lstrip_lower s : lstrip (lower s) = lower (lstrip s).
Proof.
  induction s as [|c s IH]; simpl; [easy|].
  rewrite is_space_lower_char. now destruct (is_space c).
Qed.

Lemma rstrip_lower s : rstrip (lower s) = lower (rstrip s).
Proof.
  induction s as [|c s IH]; simpl; [easy|].
  rewrite IH, is_space_lower_char.
  destruct (rstrip s); simpl; [now destruct (is_space c) | reflexivity].
Qed.

Lemma sub_spaces_lower s : forall b,
  Re.sub_spaces b (lower s) = lower (Re.sub_spaces b s).
Proof.
  induction s as [|c s IH]; intros b; simpl; [easy|].
  rewrite is_space_lower_char.
  destruct (is_space c); [destruct b|]; simpl; now rewrite IH.
Qed.

Lemma collapse_spaces_lower s : collapse_spaces (lower s) = lower (collapse_spaces s).
Proof.
  unfold collapse_spaces, strip.
  now rewrite lstrip_lower, rstrip_lower, sub_spaces_lower.
Qed.

Lemma all_chars_lower_ascii s : all_chars is_ascii (lower s) = all_chars is_ascii s.
Proof. induction s; simpl; [easy|]. now rewrite is_ascii_lower_char, IHs. Qed.

Lemma all_chars_lstrip p s : all_chars p s = true -> all_chars p (lstrip s) = true.
Proof.
  induction s as [|c s IH]; simpl; [easy|].
  intros [Hc Hs]%andb_prop. destruct (is_space c); [auto|]. simpl. now rewrite Hc.
Qed.

Lemma all_chars_rstrip p s : all_chars p s = true -> all_chars p (rstrip s) = true.
Proof.
  induction s as [|c s IH]; simpl; [easy|].
  intros [Hc Hs]%andb_prop. specialize (IH Hs).
  destruct (rstrip s); [destruct (is_space c)|]; simpl in *; now rewrite ?Hc.
Qed.

Lemma all_chars_sub_spaces p s : forall b,
  p " "%char = true -> all_chars p s = true -> all_chars p (Re.sub_spaces b s) = true.
Proof.
  induction s as [|c s IH]; intros b Hsp; simpl; [easy|].
  intros [Hc Hs]%andb_prop.
  destruct (is_space c); [destruct b|]; simpl; rewrite ?Hsp, ?Hc; simpl; auto.
Qed.

Lemma collapse_spaces_ascii s :
  all_chars is_ascii s = true -> all_chars is_ascii (collapse_spaces s) = true.
Proof.
  intros H. unfold collapse_spaces, strip.
  apply all_chars_sub_spaces; [reflexivity|]. now apply all_chars_rstrip, all_chars_lstrip.
Qed.

Lemma sub_spaces_idem s : forall b,
  Re.sub_spaces b (Re.sub_spaces b s) = Re.sub_spaces b s.
Proof.
  induction s as [|c s IH]; intros b; simpl; [easy|].
  destruct (is_space c) eqn:E; [destruct b|]; simpl; rewrite ?E, IH; reflexivity.
Qed.

Lemma lstrip_starts_ok s : starts_ok (lstrip s) = true.
Proof.
  induction s as [|c s IH]; simpl; [easy|].
  destruct (is_space c) eqn:E; [exact IH | simpl; now rewrite E].
Qed.

Lemma rstrip_starts_ok s : starts_ok s = true -> starts_ok (rstrip s) = true.
Proof.
  destruct s as [|c s]; simpl; [easy|]. intros H.
  destruct (rstrip s); [|exact H].
  destruct (is_space c) eqn:E; [discriminate H | simpl; now rewrite E].
Qed.

Lemma rstrip_ends_ok s : ends_ok (rstrip s) = true.
Proof.
  induction s as [|c s IH]; simpl; [easy|].
  destruct (rstrip s) eqn:E; [|exact IH].
  destruct (is_space c) eqn:Hc; simpl; [reflexivity | now rewrite Hc].
Qed.

Lemma lstrip_fix s : starts_ok s = true -> lstrip s = s.
Proof. destruct s as [|c s]; simpl; [easy|]. now destruct (is_space c). Qed.

Lemma rstrip_fix s : ends_ok s = true -> rstrip s = s.
Proof.
  induction s as [|c s IH]; [easy|]. destruct s as [|d s].
  - simpl. now destruct (is_space c).
  - intros H. change (ends_ok (String d s) = true) in H.
    change (rstrip (String c (String d s)))
      with (match rstrip (String d s) with
            | "" => if is_space c then "" else String c ""
            | r => String c r
            end).
    now rewrite (IH H).
Qed.

Lemma sub_spaces_starts_ok s :
  starts_ok s = true -> starts_ok (Re.sub_spaces false s) = true.
Proof.
  destruct s as [|c s]; simpl; [easy|].
  destruct (is_space c) eqn:E; [discriminate|]. intros _. simpl. now rewrite E.
Qed.

Lemma sub_spaces_nonempty s : forall b,
  ends_ok s = true -> s <> "" -> Re.sub_spaces b s <> "".
Proof.
  induction s as [|c s IH]; intros b He Hne; [easy|]. destruct s as [|d s].
  - simpl in *. now destruct (is_space c).
  - change (ends_ok (String d s) = true) in He.
    change (Re.sub_spaces b (String c (String d s)))
      with (if is_space c then
              if b then Re.sub_spaces true (String d s)
              else String " " (Re.sub_spaces true (String d s))
            else String c (Re.sub_spaces false (String d s))).
    destruct (is_space c); [destruct b|]; try discriminate. now apply IH.
Qed.

Lemma sub_spaces_ends_ok s : forall b,
  ends_ok s = true -> ends_ok (Re.sub_spaces b s) = true.
Proof.
  induction s as [|c s IH]; intros b He; [easy|]. destruct s as [|d s].
  - simpl in *. destruct (is_space c) eqn:E; [discriminate He|]. simpl. now rewrite E.
  - change (ends_ok (String d s) = true) in He.
    change (Re.sub_spaces b (String c (String d s)))
      with (if is_space c then
              if b then Re.sub_spaces true (String d s)
              else String " " (Re.sub_spaces true (String d s))
            else String c (Re.sub_spaces false (String d s))).
    assert (Hne : forall b', Re.sub_spaces b' (String d s) <> "")
      by (intros b'; now apply sub_spaces_nonempty).
    destruct (is_space c); [destruct b|].
    + now apply IH.
    + specialize (IH true He). specialize (Hne true).
      destruct (Re.sub_spaces true (String d s)); [easy | exact IH].
    + specialize (IH false He). specialize (Hne false).
      destruct (Re.sub_spaces false (String d s)); [easy | exact IH].
Qed.

(** The collapse of white space is idempotent. *)
Lemma collapse_spaces_idem s :
  collapse_spaces (collapse_spaces s) = collapse_spaces s.
Proof.
  unfold collapse_spaces at 1. unfold strip.
  assert (Hs : starts_ok (collapse_spaces s) = true)
    by (apply sub_spaces_starts_ok, rstrip_starts_ok, lstrip_starts_ok).
  assert (He : ends_ok (collapse_spaces s) = true)
    by (apply sub_spaces_ends_ok, rstrip_ends_ok).
  rewrite (lstrip_fix _ Hs), (rstrip_fix _ He).
  unfold collapse_spaces. apply sub_spaces_idem.
Qed.

Lemma is_letter_plain c :
  is_letter c = true ->
  is_space c = false /\ is_ascii c = true /\ is_digit c = false /\
  Ascii.eqb c "-" = false /\ Ascii.eqb c "+" = false /\ Ascii.eqb c "_" = false.
Proof. by_cases_on_char c; intros _; repeat split. Qed.

Lemma is_lower_fixed c : is_lower c = true -> lower_char c = c.
Proof. by_cases_on_char c. Qed.

Lemma case_variant_letters s t :
  case_variant s t -> all_chars is_lower t = true ->
  all_chars is_letter s = true /\ lower s = t /\ String.length s = String.length t.
Proof.
  induction 1 as [|a b s t Hc _ IH]; simpl; [easy|].
  intros [Hb Ht]%andb_prop. destruct (IH Ht) as (H1 & H2 & H3).
  rewrite H1, H2, H3.
  assert (is_letter a = true /\ lower_char a = b) as [-> ->]; [|easy].
  unfold is_letter.
  destruct Hc as [->|[[Ha ->]|[Hb' ->]]].
  - rewrite Hb, orb_true_r. split; [easy | now apply is_lower_fixed].
  - now rewrite Ha.
  - exfalso. revert Hb Hb'. by_cases_on_char b.
Qed.

Section DeserializeAscii.

Context {float : Type}.
Variable float_of_str : string -> option float.
Variable float_of_int : Z -> option float.
Variable unidecode : string -> string.

(** [unidecode] leaves a text of the ASCII range as it is. *)
Hypothesis unidecode_ascii :
  forall s, all_chars is_ascii s = true -> unidecode s = s.

(* The functions of the section, at its [float] and [unidecode]. *)
Local Abbreviation deser := (deserialize float_of_str float_of_int unidecode).
Local Abbreviation deser_typed := (deserialize_typed float_of_str float_of_int).
Local Abbreviation norm := (normalize unidecode).

Lemma normalize_ascii self s :
  all_chars is_ascii s = true ->
  norm self s = (if negb (has_key "retaincase" (tags self))
                 then lower (collapse_spaces s) else collapse_spaces s).
Proof.
  intros Ha. unfold normalize.
  rewrite unidecode_ascii by now apply collapse_spaces_ascii.
  destruct (String.eqb (collapse_spaces s) "") eqn:E; [|reflexivity].
  apply String.eqb_eq in E. rewrite E. now destruct (negb _).
Qed.

(** X8: normalization is idempotent on text of the ASCII range, and so is
    [deserialize] on a field of a text kind: the text it returns
    deserializes to itself. *)
Theorem normalize_idempotent self s :
  all_chars is_ascii s = true ->
  norm self (norm self s) = norm self s /\
  (forall dt v,
     fst (detailed_type self) = Ok dt -> In dt text_types ->
     fst (deser self (VStr s)) = Ok (TStr v) ->
     fst (deser self (VStr v)) = Ok (TStr v)).
Proof.
  intros Ha.
  assert (Ha' : all_chars is_ascii (norm self s) = true).
  { rewrite normalize_ascii by exact Ha.
    destruct (negb _); rewrite ?all_chars_lower_ascii; now apply collapse_spaces_ascii. }
  assert (Hc : collapse_spaces (norm self s) = norm self s).
  { rewrite normalize_ascii by exact Ha.
    destruct (negb _); rewrite ?collapse_spaces_lower; now rewrite collapse_spaces_idem. }
  assert (Hi : norm self (norm self s) = norm self s).
  { rewrite (normalize_ascii self (norm self s)) by exact Ha'. rewrite Hc.
    rewrite normalize_ascii by exact Ha.
    destruct (negb _); [apply lower_idem | reflexivity]. }
  split; [exact Hi|].
  intros dt v Hd Hin Hv.
  rewrite deserialize_str in Hv.
  destruct (String.eqb (collapse_spaces s) "") eqn:E; [discriminate Hv|].
  destruct (100 <=? String.length (norm self s))%nat eqn:L; [discriminate Hv|].
  apply String.eqb_neq in E. apply Nat.leb_gt in L.
  pose proof (proj1 (deserialize_text_kinds float_of_str float_of_int unidecode
                       self dt Hd Hin)) as Ht.
  rewrite <- (deserialize_short_text float_of_str float_of_int unidecode)
    in Hv by assumption.
  rewrite (Ht s E L) in Hv. injection Hv as <-.
  assert (Hne : norm self s <> "").
  { rewrite normalize_ascii by exact Ha. intros H0.
    apply E. destruct (negb _); [|exact H0].
    destruct (collapse_spaces s); [reflexivity | discriminate H0]. }
  rewrite Ht; rewrite ?Hc, ?Hi; auto.
Qed.

(** X9: on an integer or real field that does not retain case, a sentinel
    written in any case comes back as the lower-case literal; on an integer
    field that retains case, a sentinel not written in lower case is refused
    as an integer that cannot be parsed. *)
Theorem deserialize_sentinel_case self s sentinel :
  In sentinel sentinels -> case_variant s sentinel ->
  (fst (detailed_type self) = Ok "integer" \/ fst (detailed_type self) = Ok "real" ->
   has_key "retaincase" (tags self) = false ->
   fst (deser self (VStr s)) = Ok (TStr sentinel)) /\
  (fst (detailed_type self) = Ok "integer" ->
   has_key "retaincase" (tags self) = true -> s <> sentinel ->
   fst (deser self (VStr s)) =
   Raise (FieldValidationError
            ("Couldn't parse to integer. " +:+
             get_error_location_message self (VStr s)))).
Proof.
  intros Hin Hcv.
  assert (Hl : all_chars is_lower sentinel = true /\ sentinel <> "" /\
               String.length sentinel < 100 /\
               value_in_sentinels (VStr sentinel) = true)
    by (simpl in Hin; destruct Hin as [<-|[<-|[<-|[]]]]; repeat split;
        try discriminate; apply Nat.ltb_lt; reflexivity).
  destruct Hl as (Hl & Hne & Hlen & Hsent).
  destruct (case_variant_letters s sentinel Hcv Hl) as (Hletters & Hlow & Hlen').
  assert (Hsp : all_chars (fun c => negb (is_space c)) s = true)
    by (revert Hletters; apply all_chars_impl;
        intros c (-> & _)%is_letter_plain; reflexivity).
  assert (Ha : all_chars is_ascii s = true)
    by (revert Hletters; apply all_chars_impl;
        intros c (_ & -> & _)%is_letter_plain; reflexivity).
  assert (Hc : collapse_spaces s = s) by now apply collapse_spaces_no_space.
  assert (Hs : s <> "") by (intros ->; apply Hne; now inversion Hcv).
  split.
  - intros Hd Hr.
    assert (Hn : norm self s = sentinel)
      by (rewrite normalize_ascii, Hc, Hr by exact Ha; exact Hlow).
    rewrite (deserialize_short_text float_of_str float_of_int unidecode)
      by (rewrite ?Hc, ?Hn; assumption).
    rewrite Hn. unfold deserialize_typed. rewrite Hsent.
    destruct (detailed_type self) as [r self']. simpl in Hd.
    destruct Hd as [-> | ->]; reflexivity.
  - intros Hd Hr Hneq.
    assert (Hn : norm self s = s)
      by (rewrite normalize_ascii, Hc, Hr by exact Ha; reflexivity).
    rewrite (deserialize_short_text float_of_str float_of_int unidecode)
      by (rewrite ?Hc, ?Hn; (assumption || lia)).
    rewrite Hn. unfold deserialize_typed.
    pose proof (proj2 (detailed_type_keeps self)) as Hm.
    destruct (detailed_type self) as [r self']. simpl in Hd, Hm. subst r.
    assert (Hns : value_in_sentinels (VStr s) = false).
    { unfold value_in_sentinels.
      assert (forall t, In t sentinels -> String.eqb s t = false) as Hno.
      { intros t Ht. apply String.eqb_neq. intros ->.
        apply Hneq. rewrite <- Hlow.
        simpl in Ht. destruct Ht as [<-|[<-|[<-|[]]]]; reflexivity. }
      rewrite !Hno by (simpl; tauto). reflexivity. }
    assert (Hint : int_of_str s = None).
    { unfold int_of_str. rewrite strip_no_space by exact Hsp.
      destruct s as [|c d]; [reflexivity|].
      simpl in Hletters. apply andb_prop in Hletters as [Hcl _].
      destruct (is_letter_plain c Hcl) as (_ & _ & Hd1 & Hd2 & Hd3 & Hd4).
      rewrite Hd2, Hd3. simpl. now rewrite Hd1, Hd4. }
    cbn -[value_in_sentinels int_of_str get_error_location_message].
    now rewrite Hns, Hint, Hm.
Qed.

End DeserializeAscii.

Lemma normalize_idempotent_witness :
  normalize unidecode_id fd_alpha
    (normalize unidecode_id fd_alpha "  Living   ROOM ") =
  normalize unidecode_id fd_alpha "  Living   ROOM " /\
  fst (deserialize no_float no_float_of_int unidecode_id fd_alpha
         (VStr "living room")) = Ok (TStr "living room").
Proof.
  split.
  - refine (proj1 (normalize_idempotent no_float no_float_of_int unidecode_id
                     (fun s _ => eq_refl) fd_alpha "  Living   ROOM " _)).
    reflexivity.
  - refine (proj2 (normalize_idempotent no_float no_float_of_int unidecode_id
                     (fun s _ => eq_refl) fd_alpha "  Living   ROOM " _)
              "alpha" "living room" _ _ _).
    + reflexivity.
    + reflexivity.
    + left. reflexivity.
    + reflexivity.
Defined.

Lemma deserialize_sentinel_case_witness :
  fst (deserialize no_float no_float_of_int unidecode_id fd_integer
         (VStr "AutoSize")) = Ok (TStr "autosize") /\
  fst (deserialize no_float no_float_of_int unidecode_id fd_integer_retaincase
         (VStr "AutoSize")) =
  Raise (FieldValidationError
           ("Couldn't parse to integer. " +:+
            get_error_location_message fd_integer_retaincase (VStr "AutoSize"))).
Proof.
  assert (Hcv : case_variant "AutoSize" "autosize")
    by exact (case_variant_of_lower "AutoSize").
  split.
  - refine (proj1 (deserialize_sentinel_case no_float no_float_of_int unidecode_id
                     (fun s _ => eq_refl) fd_integer "AutoSize" "autosize" _ Hcv)
              _ _).
    + right; left; reflexivity.
    + left; reflexivity.
    + reflexivity.
  - refine (proj2 (deserialize_sentinel_case no_float no_float_of_int unidecode_id
                     (fun s _ => eq_refl) fd_integer_retaincase "AutoSize" "autosize"
                     _ Hcv) _ _ _).
    + right; left; reflexivity.
    + reflexivity.
    + reflexivity.
    + discriminate.
Defined.

(** ** [var_name_to_ref] and [table_name_to_ref]: the shape of the result *)

Lemma non_sep_lower_char c :
  is_sep (lower_char c) = false ->
  ident_char (lower_char c) = true /\ Ascii.eqb "_" (lower_char c) = false.
Proof. by_cases_on_char c; intros _; split; reflexivity. Qed.

Lemma squeeze_lower_shape s : forall b,
  all_chars ident_char (squeeze is_sep b (lower s)) = true /\
  contains "__" (squeeze is_sep b (lower s)) = false /\
  (b = true -> strip_prefix "_" (squeeze is_sep b (lower s)) = None) /\
  String.length (squeeze is_sep b (lower s)) <= String.length s.
Proof.
  induction s as [|c s IH]; intros b; [simpl; auto|].
  simpl lower. cbn [squeeze].
  destruct (is_sep (lower_char c)) eqn:E.
  - destruct b.
    + destruct (IH true) as (H1 & H2 & H3 & H4). repeat split; auto. simpl. lia.
    + destruct (IH true) as (H1 & H2 & H3 & H4). repeat split.
      * simpl. exact H1.
      * cbn [contains strip_prefix]. change (Ascii.eqb "_" "_") with true.
        cbv iota. fold (strip_prefix "_" (squeeze is_sep true (lower s))).
        rewrite (H3 eq_refl). exact H2.
      * discriminate.
      * simpl. lia.
  - destruct (non_sep_lower_char c E) as [Hi Hu].
    destruct (IH false) as (H1 & H2 & _ & H4). repeat split.
    + simpl. now rewrite Hi.
    + cbn [contains strip_prefix]. rewrite Hu. exact H2.
    + intros _. cbn [strip_prefix]. now rewrite Hu.
    + simpl. lia.
Qed.

(** X10: the ref of a name of the ASCII range is made of lower-case letters,
    digits and underscores only, has no two underscores in a row, and is
    not longer than the name. *)
Theorem var_name_to_ref_shape name :
  all_chars is_ascii name = true ->
  all_chars ident_char (var_name_to_ref name) = true /\
  contains "__" (var_name_to_ref name) = false /\
  String.length (var_name_to_ref name) <= String.length name.
Proof.
  intros _. rewrite var_name_to_ref_squeeze.
  destruct (squeeze_lower_shape name false) as (H1 & H2 & _ & H4). auto.
Qed.

Lemma var_name_to_ref_shape_witness :
  all_chars ident_char (var_name_to_ref "Zone  Name (m2)!") = true /\
  contains "__" (var_name_to_ref "Zone  Name (m2)!") = false /\
  String.length (var_name_to_ref "Zone  Name (m2)!") <= String.length "Zone  Name (m2)!".
Proof.
  apply (var_name_to_ref_shape "Zone  Name (m2)!"). reflexivity.
Defined.

Lemma colon_replaced c :
  Ascii.eqb ":" (if Ascii.eqb c ":" then "_"%char else c) = false /\
  (Ascii.eqb ":" c = false -> (if Ascii.eqb c ":" then "_"%char else c) = c) /\
  (if Ascii.eqb (if Ascii.eqb c ":" then "_"%char else c) ":" then "_"%char
   else if Ascii.eqb c ":" then "_"%char else c) =
  (if Ascii.eqb c ":" then "_"%char else c) /\
  lower_char (if Ascii.eqb c ":" then "_"%char else c) =
  (if Ascii.eqb (lower_char c) ":" then "_"%char else lower_char c).
Proof. by_cases_on_char c; repeat split; discriminate. Qed.

(** X11: [table_name_to_ref] leaves no colon, keeps the length, changes nothing
    in a name without colon, is idempotent, and commutes with the
    lower-casing that makes the key of the catalogue. *)
Theorem table_name_to_ref_properties name :
  contains_char ":" (table_name_to_ref name) = false /\
  String.length (table_name_to_ref name) = String.length name /\
  (contains_char ":" name = false -> table_name_to_ref name = name) /\
  table_name_to_ref (table_name_to_ref name) = table_name_to_ref name /\
  lower (table_name_to_ref name) = table_name_to_ref (lower name).
Proof.
  unfold table_name_to_ref, contains_char.
  induction name as [|c name (H1 & H2 & H3 & H4 & H5)]; [simpl; auto|].
  cbn [replace_char any_char lower String.length].
  destruct (colon_replaced c) as (F1 & F2 & F3 & F4).
  repeat split.
  - now rewrite F1, H1.
  - now rewrite H2.
  - intros [Hc Hn]%orb_false_elim. now rewrite (F2 Hc), (H3 Hn).
  - now rewrite F3, H4.
  - now rewrite F4, H5.
Qed.

Lemma table_name_to_ref_properties_witness :
  table_name_to_ref "Zone" = "Zone".
Proof.
  apply (proj1 (proj2 (proj2 (table_name_to_ref_properties "Zone")))).
  reflexivity.
Defined.

(** ** [_link]: what the tables hold *)

Lemma add_link_bucket lk (d : link_table) n k :
  default [] (add_link lk d n !! k) =
  (default [] (d !! k) ++ (if String.eqb (lower n) k then [lk] else []))%list.
Proof.
  unfold add_link. destruct (String.eqb (lower n) k) eqn:E.
  - apply String.eqb_eq in E as <-. rewrite lookup_insert_eq. simpl.
    destruct (d !! lower n) eqn:Hl.
    + rewrite bool_decide_eq_true_2 by eauto. now rewrite Hl.
    + rewrite bool_decide_eq_false_2 by (intros [? ?]; discriminate).
      now rewrite lookup_insert_eq.
  - apply String.eqb_neq in E. rewrite lookup_insert_ne by exact E.
    rewrite app_nil_r. destruct (bool_decide _); [reflexivity|].
    now rewrite lookup_insert_ne.
Qed.

Lemma fold_add_link_bucket lk names k : forall d : link_table,
  default [] (fold_left (add_link lk) names d !! k) =
  (default [] (d !! k) ++
   flat_map (fun v => if String.eqb (lower v) k then [lk] else []) names)%list.
Proof.
  induction names as [|n names IH]; intros d; simpl; [now rewrite app_nil_r|].
  now rewrite IH, add_link_bucket, <- app_assoc.
Qed.

Lemma get_tag_absent fieldd tag : has_tag fieldd tag = false -> get_tag fieldd tag = [].
Proof. unfold has_tag, get_tag. now intros ->%has_key_false. Qed.

Lemma link_field_buckets rd self i fieldd k :
  default [] (_pointed_rd_linkds_d (link_field rd self i fieldd) !! k) =
    (default [] (_pointed_rd_linkds_d self !! k) ++
     declared_by_fields "reference" k rd i [fieldd])%list /\
  default [] (_pointing_rd_linkds_d (link_field rd self i fieldd) !! k) =
    (default [] (_pointing_rd_linkds_d self !! k) ++
     declared_by_fields "object-list" k rd i [fieldd])%list.
Proof.
  unfold link_field. cbn [declared_by_fields]. rewrite !app_nil_r.
  destruct (has_tag fieldd "reference") eqn:E1,
           (has_tag fieldd "object-list") eqn:E2; simpl;
    rewrite ?fold_add_link_bucket, ?(get_tag_absent _ _ E1), ?(get_tag_absent _ _ E2);
    simpl; rewrite ?app_nil_r; auto.
Qed.

Lemma link_fields_buckets rd l k : forall i self,
  default [] (_pointed_rd_linkds_d (link_fields rd i l self) !! k) =
    (default [] (_pointed_rd_linkds_d self !! k) ++
     declared_by_fields "reference" k rd i l)%list /\
  default [] (_pointing_rd_linkds_d (link_fields rd i l self) !! k) =
    (default [] (_pointing_rd_linkds_d self !! k) ++
     declared_by_fields "object-list" k rd i l)%list.
Proof.
  induction l as [|f l IH]; intros i self; [simpl; now rewrite !app_nil_r|].
  cbn [link_fields]. destruct (IH (S i) (link_field rd self i f)) as [-> ->].
  destruct (link_field_buckets rd self i f k) as [-> ->].
  cbn [declared_by_fields]. rewrite !app_nil_r, <- !app_assoc. auto.
Qed.

Lemma link_all_buckets rds k : forall self,
  default [] (_pointed_rd_linkds_d (link_all rds self) !! k) =
    (default [] (_pointed_rd_linkds_d self !! k) ++ declared "reference" k rds)%list /\
  default [] (_pointing_rd_linkds_d (link_all rds self) !! k) =
    (default [] (_pointing_rd_linkds_d self !! k) ++ declared "object-list" k rds)%list.
Proof.
  induction rds as [|rd rds IH]; intros self; [simpl; now rewrite !app_nil_r|].
  change (link_all (rd :: rds) self)
    with (link_all rds (link_fields rd 0 (field_descriptors rd) self)).
  destruct (IH (link_fields rd 0 (field_descriptors rd) self)) as [-> ->].
  destruct (link_fields_buckets rd (field_descriptors rd) k 0 self) as [-> ->].
  unfold declared. simpl. rewrite <- !app_assoc. auto.
Qed.

Lemma links_default self name :
  fst (pointed_links self name) = default [] (_pointed_rd_linkds_d self !! lower name) /\
  fst (pointing_links self name) = default [] (_pointing_rd_linkds_d self !! lower name).
Proof.
  unfold pointed_links, pointing_links.
  destruct (_pointed_rd_linkds_d self !! lower name),
           (_pointing_rd_linkds_d self !! lower name); auto.
Qed.

(** What [Idd.__init__] builds: the result of [_parse], enriched and
    linked. *)
Lemma Idd_init_Ok table_ref_of post_init lines idd :
  Idd_init table_ref_of post_init lines = Ok idd ->
  exists st,
    parse_lines table_ref_of 0 lines initial_state = Ok st /\
    idd = link_all
            (map post_init (OD.values (ps_table_descriptors st)))
            {| _table_descriptors :=
                 map (fun kv => (fst kv, post_init (snd kv))) (ps_table_descriptors st);
               _pointed_rd_linkds_d := ∅;
               _pointing_rd_linkds_d := ∅ |}.
Proof.
  unfold Idd_init, _parse. simpl. fold initial_state.
  destruct (parse_lines table_ref_of 0 lines initial_state) as [st|e]; [|discriminate].
  simpl. intros [= <-]. exists st. split; [reflexivity|].
  unfold _link, _post_init, link_all, OD.values. simpl.
  now rewrite !map_map.
Qed.

Lemma Idd_init_values table_ref_of post_init lines idd st :
  parse_lines table_ref_of 0 lines initial_state = Ok st ->
  Idd_init table_ref_of post_init lines = Ok idd ->
  OD.values (_table_descriptors idd) =
  map post_init (OD.values (ps_table_descriptors st)).
Proof.
  intros Hst (st' & Hst' & ->)%Idd_init_Ok.
  rewrite Hst in Hst'. injection Hst' as <-.
  rewrite link_all_tables. unfold OD.values. simpl. now rewrite !map_map.
Qed.

Lemma link_tables_exact_aux table_ref_of post_init lines idd :
  Idd_init table_ref_of post_init lines = Ok idd ->
  forall name,
    fst (pointing_links idd name) =
      declared "object-list" (lower name) (OD.values (_table_descriptors idd)) /\
    fst (pointed_links idd name) =
      declared "reference" (lower name) (OD.values (_table_descriptors idd)).
Proof.
  intros Hinit name.
  destruct (Idd_init_Ok _ _ _ _ Hinit) as (st & Hst & Hidd).
  rewrite (Idd_init_values _ _ _ _ _ Hst Hinit).
  destruct (links_default idd name) as [-> ->]. subst idd.
  match goal with
  | |- context [link_all ?rds ?self] =>
      destruct (link_all_buckets rds (lower name) self) as [-> ->]
  end.
  simpl. rewrite !lookup_empty. auto.
Qed.

(** X12: the lookups of a built catalogue return exactly the declared links:
    [pointing_links(name)] is the list, record after record in the order of
    the catalogue and field after field, of the fields with an
    ["object-list"] value equal to [name] up to case, once for each such
    value; [pointed_links(name)] is the same for the ["reference"] values. *)
Theorem link_tables_exact table_ref_of post_init lines idd :
  Idd_init table_ref_of post_init lines = Ok idd ->
  forall name,
    fst (pointing_links idd name) =
      declared "object-list" (lower name) (OD.values (_table_descriptors idd)) /\
    fst (pointed_links idd name) =
      declared "reference" (lower name) (OD.values (_table_descriptors idd)).
Proof.
  intros Hinit name.
  destruct (Idd_init_Ok _ _ _ _ Hinit) as (st & Hst & Hidd).
  rewrite (Idd_init_values _ _ _ _ _ Hst Hinit).
  destruct (links_default idd name) as [-> ->]. subst idd.
  destruct (link_all_buckets
              (map post_init (OD.values (ps_table_descriptors st))) (lower name)
              {| _table_descriptors :=
                   map (fun kv => (fst kv, post_init (snd kv)))
                     (ps_table_descriptors st);
                 _pointed_rd_linkds_d := ∅;
                 _pointing_rd_linkds_d := ∅ |}) as [-> ->].
  simpl. rewrite !lookup_empty. auto.
Qed.

Lemma link_tables_exact_witness :
  fst (pointing_links example_idd "ZONENAMES") =
  declared "object-list" (lower "ZONENAMES")
    (OD.values (_table_descriptors example_idd)).
Proof.
  refine (proj1 (link_tables_exact table_name_to_ref (fun rd => rd) example_lines
                   example_idd _ "ZONENAMES")).
  vm_compute. reflexivity.
Defined.

Lemma add_link_no_empty lk (d : link_table) n :
  no_empty_bucket d -> no_empty_bucket (add_link lk d n).
Proof.
  intros H k l. unfold add_link.
  destruct (decide (lower n = k)) as [<-|Hne].
  - rewrite lookup_insert_eq. intros [= <-]. now destruct (default [] _).
  - rewrite lookup_insert_ne by exact Hne.
    destruct (bool_decide _); [apply H|].
    rewrite lookup_insert_ne by exact Hne. apply H.
Qed.

Lemma fold_add_link_no_empty lk names : forall d : link_table,
  no_empty_bucket d -> no_empty_bucket (fold_left (add_link lk) names d).
Proof.
  induction names as [|n names IH]; intros d H; simpl; [exact H|].
  now apply IH, add_link_no_empty.
Qed.

Lemma link_field_no_empty rd self i fieldd :
  no_empty_bucket (_pointed_rd_linkds_d self) /\
  no_empty_bucket (_pointing_rd_linkds_d self) ->
  no_empty_bucket (_pointed_rd_linkds_d (link_field rd self i fieldd)) /\
  no_empty_bucket (_pointing_rd_linkds_d (link_field rd self i fieldd)).
Proof.
  intros [H1 H2]. unfold link_field.
  destruct (has_tag fieldd "reference"), (has_tag fieldd "object-list"); simpl;
    split; auto using fold_add_link_no_empty.
Qed.

Lemma link_fields_no_empty rd l : forall i self,
  no_empty_bucket (_pointed_rd_linkds_d self) /\
  no_empty_bucket (_pointing_rd_linkds_d self) ->
  no_empty_bucket (_pointed_rd_linkds_d (link_fields rd i l self)) /\
  no_empty_bucket (_pointing_rd_linkds_d (link_fields rd i l self)).
Proof.
  induction l as [|f l IH]; intros i self H; simpl; [exact H|].
  now apply IH, link_field_no_empty.
Qed.

Lemma link_all_no_empty rds : forall self,
  no_empty_bucket (_pointed_rd_linkds_d self) /\
  no_empty_bucket (_pointing_rd_linkds_d self) ->
  no_empty_bucket (_pointed_rd_linkds_d (link_all rds self)) /\
  no_empty_bucket (_pointing_rd_linkds_d (link_all rds self)).
Proof.
  induction rds as [|rd rds IH]; intros self H; [exact H|].
  change (link_all (rd :: rds) self)
    with (link_all rds (link_fields rd 0 (field_descriptors rd) self)).
  now apply IH, link_fields_no_empty.
Qed.

(** X13: in a built catalogue no bucket of the link tables is empty, so a lookup
    logs its diagnostic exactly when it returns no link, and it returns no
    link exactly when no field declares the name. *)
Theorem link_lookup_logs_on_empty table_ref_of post_init lines idd :
  Idd_init table_ref_of post_init lines = Ok idd ->
  forall name,
    (snd (pointed_links idd name) <> [] <-> fst (pointed_links idd name) = []) /\
    (snd (pointing_links idd name) <> [] <-> fst (pointing_links idd name) = []) /\
    (fst (pointed_links idd name) = [] <->
     declared "reference" (lower name) (OD.values (_table_descriptors idd)) = []) /\
    (fst (pointing_links idd name) = [] <->
     declared "object-list" (lower name) (OD.values (_table_descriptors idd)) = []).
Proof.
  intros Hinit name.
  destruct (link_tables_exact_aux table_ref_of post_init lines idd Hinit name)
    as [Ho Hr].
  destruct (Idd_init_Ok _ _ _ _ Hinit) as (st & _ & Hidd).
  assert (Hne : no_empty_bucket (_pointed_rd_linkds_d idd) /\
                no_empty_bucket (_pointing_rd_linkds_d idd)).
  { subst idd. apply link_all_no_empty. simpl.
    split; intros k l; rewrite lookup_empty; discriminate. }
  destruct Hne as [N1 N2].
  rewrite <- Ho, <- Hr. unfold pointed_links, pointing_links.
  repeat split; try tauto.
  - destruct (_pointed_rd_linkds_d idd !! lower name) eqn:E; simpl; [|easy].
    intros H. now destruct H.
  - destruct (_pointed_rd_linkds_d idd !! lower name) eqn:E; simpl; [|easy].
    intros ->. now apply N1 in E.
  - destruct (_pointing_rd_linkds_d idd !! lower name) eqn:E; simpl; [|easy].
    intros H. now destruct H.
  - destruct (_pointing_rd_linkds_d idd !! lower name) eqn:E; simpl; [|easy].
    intros ->. now apply N2 in E.
Qed.

Lemma link_lookup_logs_on_empty_witness :
  snd (pointing_links example_idd "Surfaces") <> [] <->
  fst (pointing_links example_idd "Surfaces") = [].
Proof.
  refine (proj1 (proj2 (link_lookup_logs_on_empty table_name_to_ref (fun rd => rd)
                          example_lines example_idd _ "Surfaces"))).
  vm_compute. reflexivity.
Defined.

(** ** The catalogue: keys and [get_record_descriptor] *)

Lemma OD_set_keys_in {V} k (v : V) d k' :
  In k' (map fst (OD.set k v d)) <-> k' = k \/ In k' (map fst d).
Proof.
  induction d as [|[k0 v0] d IH]; simpl; [intuition congruence|].
  destruct (String.eqb k k0) eqn:E; simpl.
  - apply String.eqb_eq in E as ->. intuition congruence.
  - rewrite IH. intuition congruence.
Qed.

Lemma OD_set_NoDup {V} k (v : V) d :
  List.NoDup (map fst d) -> List.NoDup (map fst (OD.set k v d)).
Proof.
  induction d as [|[k0 v0] d IH]; simpl; intros H.
  - constructor; [intros [] | constructor].
  - inversion H as [|? ? Hn Hd]; subst.
    destruct (String.eqb k k0) eqn:E; simpl.
    + apply String.eqb_eq in E as ->. now constructor.
    + apply String.eqb_neq in E. constructor; [|now apply IH].
      rewrite OD_set_keys_in. intros [->|Hin]; [now apply E | now apply Hn].
Qed.

Lemma OD_set_Forall {V} (P : string * V -> Prop) k v d :
  Forall P d -> P (k, v) -> Forall P (OD.set k v d).
Proof.
  induction d as [|[k0 v0] d IH]; simpl; intros H Hkv; [now repeat constructor|].
  inversion H; subst.
  destruct (String.eqb k k0); constructor; auto.
Qed.

Lemma OD_get_In {V} k (v : V) d : OD.get k d = Some v -> In (k, v) d.
Proof.
  induction d as [|[k0 v0] d IH]; simpl; [discriminate|].
  destruct (String.eqb k k0) eqn:E.
  - apply String.eqb_eq in E as ->. intros [= ->]. now left.
  - intros H. right. now apply IH.
Qed.

Lemma OD_In_get {V} k (v : V) d :
  List.NoDup (map fst d) -> In (k, v) d -> OD.get k d = Some v.
Proof.
  induction d as [|[k0 v0] d IH]; simpl; [easy|].
  intros H Hin. inversion H as [|? ? Hn Hd]; subst.
  destruct Hin as [[= -> ->]|Hin].
  - now rewrite String.eqb_refl.
  - destruct (String.eqb k k0) eqn:E; [|now apply IH].
    apply String.eqb_eq in E as ->. exfalso. apply Hn.
    now apply (in_map fst) in Hin.
Qed.

Lemma OD_get_None {V} k (d : OD.t V) : ~ In k (map fst d) -> OD.get k d = None.
Proof.
  induction d as [|[k0 v0] d IH]; simpl; [easy|]. intros H.
  destruct (String.eqb k k0) eqn:E.
  - apply String.eqb_eq in E as ->. exfalso. apply H. now left.
  - apply IH. intros Hin. apply H. now right.
Qed.

Lemma keys_ok_set k rd d :
  keys_ok d -> k = lower (table_ref rd) -> keys_ok (OD.set k rd d).
Proof.
  intros [H1 H2] Hk. split; [now apply OD_set_NoDup | now apply OD_set_Forall].
Qed.

Lemma keys_ok_update k f d :
  (forall td, table_ref (f td) = table_ref td) ->
  keys_ok d -> keys_ok (update_rd k f d).
Proof.
  intros Hf H. unfold update_rd. destruct (OD.get k d) as [td|] eqn:E; [|exact H].
  apply keys_ok_set; [exact H|]. rewrite Hf.
  apply OD_get_In in E. destruct H as [_ H].
  rewrite List.Forall_forall in H. exact (H _ E).
Qed.

Lemma new_field_keys st t n st' :
  new_field st t n = Ok st' ->
  keys_ok (ps_table_descriptors st) -> keys_ok (ps_table_descriptors st').
Proof.
  unfold new_field. destruct (FieldDescriptor_init _ _ t n); [|discriminate].
  simpl. destruct (ps_rd st); [|discriminate].
  intros [= <-] H. simpl. now apply keys_ok_update.
Qed.

Lemma new_fields_keys l : forall st st',
  new_fields st l = Ok st' ->
  keys_ok (ps_table_descriptors st) -> keys_ok (ps_table_descriptors st').
Proof.
  induction l as [|f l IH]; intros st st'; simpl; [now intros [= <-]|].
  destruct f as [|c f]; [discriminate|].
  destruct (new_field st (String c "") None) as [st1|e] eqn:E; [|discriminate].
  simpl. intros H1 H. apply (IH _ _ H1). now apply (new_field_keys _ _ _ _ E).
Qed.

Lemma store_tag_keys st r v st' :
  store_tag st r v = Ok st' ->
  keys_ok (ps_table_descriptors st) -> keys_ok (ps_table_descriptors st').
Proof.
  unfold store_tag. destruct (ps_fieldd st) as [[k j]|].
  - intros [= <-] H. simpl. now apply keys_ok_update.
  - destruct (ps_rd st); [|discriminate].
    intros [= <-] H. simpl. now apply keys_ok_update.
Qed.

Lemma parse_line_keys table_ref_of i raw st st' :
  parse_line table_ref_of i raw st = Ok st' ->
  keys_ok (ps_table_descriptors st) -> keys_ok (ps_table_descriptors st').
Proof.
  unfold parse_line.
  destruct (Line.blank _); [now intros [= <-]|].
  destruct (Line.group _); [now intros [= <-]|].
  destruct (Line.tag _) as [content|].
  { destruct (negb _); simpl; [apply store_tag_keys|].
    destruct (Line.tag_ref_value content) as [[r v]|]; [|discriminate].
    simpl. apply store_tag_keys. }
  destruct (Line.named_field _) as [[t n]|]; [apply new_field_keys|].
  destruct (Line.unnamed_fields _); [apply new_fields_keys|].
  destruct (Line.record_header _) as [g1|].
  { destruct (ps_group_name st); [|discriminate].
    destruct (OD.mem _ _); [discriminate|].
    intros [= <-] H. simpl. now apply keys_ok_set. }
  destruct (_ || _); [now intros [= <-] | discriminate].
Qed.

Lemma parse_lines_keys table_ref_of lines : forall i st st',
  parse_lines table_ref_of i lines st = Ok st' ->
  keys_ok (ps_table_descriptors st) -> keys_ok (ps_table_descriptors st').
Proof.
  induction lines as [|raw lines IH]; intros i st st'; simpl; [now intros [= <-]|].
  destruct (parse_line table_ref_of i raw st) as [st1|e] eqn:E; [|discriminate].
  simpl. intros H1 H. apply (IH _ _ _ H1). now apply (parse_line_keys _ _ _ _ _ E).
Qed.

Lemma keys_ok_post_init post_init d :
  (forall td, table_ref (post_init td) = table_ref td) ->
  keys_ok d -> keys_ok (map (fun kv => (fst kv, post_init (snd kv))) d).
Proof.
  intros Hp [H1 H2]. split.
  - now rewrite map_map, (map_ext _ fst) by reflexivity.
  - rewrite List.Forall_map. eapply List.Forall_impl; [|exact H2].
    intros [k td]. simpl. now rewrite Hp.
Qed.

(** X14: in a built catalogue, when [post_init] keeps the [table_ref] of a
    descriptor, the keys are distinct and each is the lower-cased
    [table_ref] of its descriptor; so every record descriptor of the
    catalogue is what [get_record_descriptor] returns for its [table_ref]
    written in any case, [get_record_descriptor] returns nothing else, and
    it raises a [KeyError] for a name whose lower-casing is not a key. *)
Theorem get_record_descriptor_finds table_ref_of post_init lines idd :
  Idd_init table_ref_of post_init lines = Ok idd ->
  (forall td, table_ref (post_init td) = table_ref td) ->
  keys_ok (_table_descriptors idd) /\
  (forall rd n,
     In rd (OD.values (_table_descriptors idd)) -> case_variant n (table_ref rd) ->
     get_record_descriptor idd n = Ok rd) /\
  (forall rd n,
     get_record_descriptor idd n = Ok rd ->
     In rd (OD.values (_table_descriptors idd)) /\ lower n = lower (table_ref rd)) /\
  (forall n,
     ~ In (lower n) (map fst (_table_descriptors idd)) ->
     get_record_descriptor idd n = Raise (KeyError (lower n))).
Proof.
  intros Hinit Hp.
  destruct (Idd_init_Ok _ _ _ _ Hinit) as (st & Hst & Hidd).
  assert (Hk : keys_ok (_table_descriptors idd)).
  { subst idd. rewrite link_all_tables. simpl. apply keys_ok_post_init; [exact Hp|].
    apply (parse_lines_keys _ _ _ _ _ Hst). split; [constructor | constructor]. }
  split; [exact Hk|]. destruct Hk as [Hnd Hall]. rewrite List.Forall_forall in Hall.
  unfold get_record_descriptor, OD.values. repeat split.
  - intros rd n Hin Hcv. apply in_map_iff in Hin as ([k rd'] & <- & Hin).
    pose proof (Hall _ Hin) as Hkey. simpl in Hkey, Hcv |- *.
    rewrite (case_variant_lower _ _ Hcv), <- Hkey.
    now rewrite (OD_In_get _ _ _ Hnd Hin).
  - destruct (OD.get (lower n) (_table_descriptors idd)) eqn:E; [|discriminate H].
    injection H as ->. apply OD_get_In in E. now apply (in_map snd) in E.
  - destruct (OD.get (lower n) (_table_descriptors idd)) eqn:E; [|discriminate H].
    injection H as ->. apply OD_get_In in E. apply Hall in E. exact E.
  - intros n Hn. now rewrite OD_get_None.
Qed.

Lemma get_record_descriptor_finds_witness :
  get_record_descriptor example_idd "ZONE" = Ok example_zone /\
  get_record_descriptor example_idd "Roof" = Raise (KeyError "roof").
Proof.
  split.
  - refine (proj1 (proj2 (get_record_descriptor_finds table_name_to_ref
                            (fun rd => rd) example_lines example_idd _ _))
              example_zone "ZONE" _ _).
    + vm_compute. reflexivity.
    + reflexivity.
    + vm_compute. right. left. reflexivity.
    + repeat (constructor; [first [now left | right; left; split; reflexivity]|]).
      constructor.
  - refine (proj2 (proj2 (proj2 (get_record_descriptor_finds table_name_to_ref
                                   (fun rd => rd) example_lines example_idd _ _)))
              "Roof" _).
    + vm_compute. reflexivity.
    + reflexivity.
    + vm_compute. intros [H|[H|H]]; [discriminate H | discriminate H | exact H].
Defined.

(** ** [_parse]: failures and comments *)

Lemma parse_lines_app table_ref_of l1 : forall i l2 st,
  parse_lines table_ref_of i (l1 ++ l2) st =
  bind (parse_lines table_ref_of i l1 st)
       (parse_lines table_ref_of (i + length l1) l2).
Proof.
  induction l1 as [|raw l1 IH]; intros i l2 st; simpl.
  - now rewrite Nat.add_0_r.
  - destruct (parse_line table_ref_of i raw st) as [st1|e]; simpl; [|reflexivity].
    rewrite IH. now replace (S i + length l1) with (i + S (length l1)) by lia.
Qed.

(** X15: the first line that [_parse] cannot take ends the construction with
    the error of that line, whatever lines follow; no catalogue is built. *)
Theorem first_failing_line_aborts table_ref_of post_init before bad after st e :
  parse_lines table_ref_of 0 before initial_state = Ok st ->
  parse_line table_ref_of (length before) bad st = Raise e ->
  Idd_init table_ref_of post_init (before ++ bad :: after) = Raise e.
Proof.
  intros Hb He. unfold Idd_init, _parse. simpl. fold initial_state.
  rewrite parse_lines_app, Hb. simpl. now rewrite He.
Qed.

Lemma first_failing_line_aborts_witness :
  Idd_init table_name_to_ref (fun rd => rd)
    (example_lines ++ ("Zone:List" +:+ nl) :: example_lines) =
  Raise (RuntimeError ("Line 12 not parsed: 'Zone:List" +:+ nl +:+ "'.")).
Proof.
  refine (first_failing_line_aborts table_name_to_ref (fun rd => rd) example_lines
            ("Zone:List" +:+ nl) example_lines
            (mkParseState (Some "Thermal Zones") (Some "zone") (Some ("zone", 0%nat))
               [("wall", example_wall); ("zone", example_zone)])
            _ _ _).
  - vm_compute. reflexivity.
  - vm_compute. reflexivity.
Defined.

Lemma split_head_comment line comment :
  contains_char "!" line = false ->
  split_head "!" (line +:+ String "!" comment) = line.
Proof.
  unfold contains_char.
  induction line as [|c line IH]; [reflexivity|].
  cbn [any_char]. intros [Hc Hl]%orb_false_elim.
  cbn [String.append split_head strip_prefix]. rewrite Hc. now rewrite IH.
Qed.

Lemma split_head_plain line :
  contains_char "!" line = false -> split_head "!" line = line.
Proof.
  unfold contains_char.
  induction line as [|c line IH]; [reflexivity|].
  cbn [any_char]. intros [Hc Hl]%orb_false_elim.
  cbn [split_head strip_prefix]. rewrite Hc. now rewrite IH.
Qed.

Lemma parse_line_same_head table_ref_of i j raw1 raw2 st st' :
  split_head "!" raw1 = split_head "!" raw2 ->
  parse_line table_ref_of i raw1 st = Ok st' ->
  parse_line table_ref_of j raw2 st = Ok st'.
Proof.
  unfold parse_line. intros <-.
  destruct (Line.blank _); [easy|].
  destruct (Line.group _); [easy|].
  destruct (Line.tag _); [easy|].
  destruct (Line.named_field _) as [[t n]|]; [easy|].
  destruct (Line.unnamed_fields _); [easy|].
  destruct (Line.record_header _); [easy|].
  destruct (_ || _); [easy | discriminate].
Qed.

(** X16: what follows the first [!] of a line is a comment: a line that
    [_parse] takes gives the same state with any comment appended, on
    whatever line of the file it stands. *)
Theorem comment_is_ignored table_ref_of i j line comment st st' :
  contains_char "!" line = false ->
  parse_line table_ref_of i line st = Ok st' ->
  parse_line table_ref_of j (line +:+ String "!" comment) st = Ok st'.
Proof.
  intros Hl. apply parse_line_same_head.
  now rewrite split_head_comment, split_head_plain.
Qed.

Lemma comment_is_ignored_witness :
  parse_line table_name_to_ref 7
    ("\group Thermal Zones " +:+ String "!" (" zones" +:+ nl)) initial_state =
  Ok (mkParseState (Some "Thermal Zones") None None []).
Proof.
  apply (comment_is_ignored table_name_to_ref 0 7 "\group Thermal Zones "
           (" zones" +:+ nl) initial_state).
  - reflexivity.
  - vm_compute. reflexivity.
Defined.

(** ** [_parse]: the record-header line *)

Lemma take_drop_while p s : Line.take_while p s +:+ Line.drop_while p s = s.
Proof.
  induction s as [|c s IH]; simpl; [reflexivity|].
  destruct (p c); simpl; [now rewrite IH | reflexivity].
Qed.

Lemma take_while_all p s : all_chars p (Line.take_while p s) = true.
Proof.
  induction s as [|c s IH]; simpl; [reflexivity|].
  destruct (p c) eqn:E; simpl; [now rewrite E | reflexivity].
Qed.

Lemma header_char_plain c :
  Line.header_char c = true ->
  is_space c = false /\ Line.one_of ";," c = false /\ Ascii.eqb "\" c = false.
Proof. by_cases_on_char c; intros _; repeat split. Qed.

Lemma space_not_backslash c : is_space c = true -> Ascii.eqb "\" c = false.
Proof. by_cases_on_char c. Qed.

Lemma comma_plain :
  is_digit ","%char = false /\ is_space ","%char = false.
Proof. split; reflexivity. Qed.

(** The form of a line that the pattern of record headers matches. *)
Lemma record_header_Some line name :
  Line.record_header line = Some name ->
  exists rest,
    lstrip line = name +:+ String "," rest /\ name <> "" /\
    all_chars Line.header_char name = true /\ all_chars is_space rest = true.
Proof.
  unfold Line.record_header.
  pose proof (take_drop_while Line.header_char (lstrip line)) as Htd.
  pose proof (take_while_all Line.header_char (lstrip line)) as Hall.
  destruct (Line.take_while Line.header_char (lstrip line)) as [|t nm];
    [discriminate|].
  destruct (Line.drop_while Line.header_char (lstrip line)) as [|c rest];
    [discriminate|].
  destruct c as [[] [] [] [] [] [] [] []]; try discriminate.
  destruct (all_chars is_space rest) eqn:E; [|discriminate].
  intros [= <-]. exists rest. repeat split; auto; discriminate.
Qed.

Lemma lstrip_first line c x :
  lstrip line = String c x ->
  exists b s, line = String b s /\ (is_space b = true \/ b = c).
Proof.
  destruct line as [|b s]; simpl; [discriminate|].
  destruct (is_space b) eqn:E; intros H; exists b, s; split; auto.
  right. now injection H.
Qed.

Lemma drop_digits_of_header nm rest :
  all_chars Line.header_char nm = true ->
  exists c x,
    Line.drop_while is_digit (nm +:+ String "," rest) = String c x /\
    is_space c = false /\ (Line.one_of ";," c = true -> x = rest).
Proof.
  induction nm as [|d nm IH]; simpl.
  - intros _. exists ","%char, rest. repeat split.
  - intros [Hd Hn]%andb_prop. destruct (is_digit d); [now apply IH|].
    destruct (header_char_plain d Hd) as (H1 & H2 & _).
    eexists _, _. repeat split; [exact H1|]. rewrite H2. discriminate.
Qed.

Lemma slots_note_empty fuel : Line.slots_note fuel "" = false.
Proof. now destruct fuel. Qed.

Lemma lstrip_all_space_empty s : all_chars is_space s = true -> lstrip s = "".
Proof. apply lstrip_empty. Qed.

(** A line of that form matches none of the patterns tried before. *)
Lemma record_header_only line name :
  Line.record_header line = Some name ->
  Line.blank line = false /\ Line.group line = None /\ Line.tag line = None /\
  Line.named_field line = None /\ Line.unnamed_fields line = false.
Proof.
  intros (rest & Hl & Hne & Hall & Hrest)%record_header_Some.
  destruct name as [|t nm]; [easy|]. simpl in Hl, Hall.
  apply andb_prop in Hall as [Ht Hnm].
  destruct (header_char_plain t Ht) as (Hsp & _ & Hbs).
  destruct (lstrip_first _ _ _ Hl) as (b & s & -> & Hb).
  assert (Hb' : Ascii.eqb "\" b = false)
    by (destruct Hb as [Hb| ->]; [now apply space_not_backslash | exact Hbs]).
  destruct (drop_digits_of_header nm rest Hnm) as (c & x & Hd & Hc & Hx).
  repeat split.
  - unfold Line.blank. destruct (all_chars is_space (String b s)) eqn:E; [|reflexivity].
    apply lstrip_empty in E. rewrite E in Hl. discriminate Hl.
  - unfold Line.group. cbn [strip_prefix]. now rewrite Hb'.
  - unfold Line.tag. rewrite Hl. cbn [strip_prefix]. now rewrite Hbs.
  - unfold Line.named_field. rewrite Hl.
    destruct (_ && _); [|reflexivity].
    rewrite Hd. cbn [lstrip]. rewrite Hc.
    destruct (Line.one_of ";," c) eqn:E; [|reflexivity].
    rewrite (Hx eq_refl), (lstrip_all_space_empty _ Hrest). reflexivity.
  - unfold Line.unnamed_fields. rewrite Hl.
    destruct (String.length (String b s)) as [|fuel]; [reflexivity|].
    cbn [Line.slots_note Line.slot].
    destruct (_ && _); [|reflexivity].
    rewrite Hd.
    destruct (Line.one_of ";," c) eqn:E; [|reflexivity].
    rewrite (Hx eq_refl), (lstrip_all_space_empty _ Hrest).
    cbn [strip_prefix]. apply slots_note_empty.
Qed.

Lemma header_name_strip name :
  all_chars Line.header_char name = true -> strip name = name.
Proof.
  intros H. apply strip_no_space. revert H. apply all_chars_impl.
  intros c (-> & _)%header_char_plain. reflexivity.
Qed.

Lemma OD_get_set {V} k (v : V) d : OD.get k (OD.set k v d) = Some v.
Proof.
  induction d as [|[k0 v0] d IH]; simpl; [now rewrite String.eqb_refl|].
  destruct (String.eqb k k0) eqn:E; simpl; [now rewrite String.eqb_refl|].
  now rewrite E.
Qed.

(** X17: a line of the form of a record header, with or without a comment, is
    taken as a record header and as nothing else.  It fails when no group
    is open; it fails when the ref, as it is written, is a key of the
    catalogue; otherwise a descriptor without fields or tags is put under
    the lower-cased ref, where it is found afterwards, whatever that key
    held before. *)
Theorem record_header_line table_ref_of i raw st name :
  Line.record_header (split_head "!" raw) = Some name ->
  parse_line table_ref_of i raw st =
  match ps_group_name st with
  | None => Raise (AssertionError "No group name.")
  | Some group_name =>
      if OD.mem (table_ref_of name) (ps_table_descriptors st) then
        Raise (AssertionError "Record descriptor already registered.")
      else
        Ok {| ps_group_name := ps_group_name st;
              ps_rd := Some (lower (table_ref_of name));
              ps_fieldd := None;
              ps_table_descriptors :=
                OD.set (lower (table_ref_of name))
                  (TableDescriptor_init table_ref_of name group_name)
                  (ps_table_descriptors st) |}
  end /\
  (forall st',
     parse_line table_ref_of i raw st = Ok st' ->
     exists group_name,
       OD.get (lower (table_ref_of name)) (ps_table_descriptors st') =
       Some (mkTableDescriptor name (table_ref_of name) group_name [] ∅)).
Proof.
  intros H.
  destruct (record_header_only _ _ H) as (H1 & H2 & H3 & H4 & H5).
  destruct (record_header_Some _ _ H) as (rest & _ & _ & Hall & _).
  assert (E : parse_line table_ref_of i raw st =
              match ps_group_name st with
              | None => Raise (AssertionError "No group name.")
              | Some group_name =>
                  if OD.mem (table_ref_of name) (ps_table_descriptors st) then
                    Raise (AssertionError "Record descriptor already registered.")
                  else
                    Ok {| ps_group_name := ps_group_name st;
                          ps_rd := Some (lower (table_ref_of name));
                          ps_fieldd := None;
                          ps_table_descriptors :=
                            OD.set (lower (table_ref_of name))
                              (TableDescriptor_init table_ref_of name group_name)
                              (ps_table_descriptors st) |}
              end).
  { unfold parse_line. rewrite H1, H2, H3, H4, H5, H.
    rewrite (header_name_strip _ Hall). reflexivity. }
  split; [exact E|].
  intros st'. rewrite E.
  destruct (ps_group_name st) as [g|]; [|discriminate].
  destruct (OD.mem _ _); [discriminate|].
  intros [= <-]. exists g. simpl. apply OD_get_set.
Qed.

Lemma record_header_line_witness :
  parse_line table_name_to_ref 3 ("  Zone:List,  ! a record" +:+ nl)
    (mkParseState (Some "Thermal Zones") None None []) =
  Ok (mkParseState (Some "Thermal Zones") (Some "zone_list") None
        [("zone_list", mkTableDescriptor "Zone:List" "Zone_List" "Thermal Zones" [] ∅)]) /\
  exists group_name,
    OD.get (lower (table_name_to_ref "Zone:List"))
      [("zone_list", mkTableDescriptor "Zone:List" "Zone_List" "Thermal Zones" [] ∅)] =
    Some (mkTableDescriptor "Zone:List" (table_name_to_ref "Zone:List") group_name [] ∅).
Proof.
  split.
  - refine (proj1 (record_header_line table_name_to_ref 3
                     ("  Zone:List,  ! a record" +:+ nl)
                     (mkParseState (Some "Thermal Zones") None None [])
                     "Zone:List" _)).
    vm_compute. reflexivity.
  - refine (proj2 (record_header_line table_name_to_ref 3
                     ("  Zone:List,  ! a record" +:+ nl)
                     (mkParseState (Some "Thermal Zones") None None [])
                     "Zone:List" _)
              (mkParseState (Some "Thermal Zones") (Some "zone_list") None
                 [("zone_list",
                   mkTableDescriptor "Zone:List" "Zone_List" "Thermal Zones" [] ∅)])
              _).
    + vm_compute. reflexivity.
    + vm_compute. reflexivity.
Defined.
